(** * BHVD focus timer: a shallow embedding of the web build

    The development follows the single source module of the application:
    the [AudioEngine] class (generative brown noise behind a gain node), the
    [SessionView] component (timer, phase, audio effect) and the [App]
    component (history state, persistence to [localStorage], navigation).

    Conventions.
    - JavaScript numbers that hold audio quantities (gain, audio time,
      samples) are exact rationals [Q]; rounding of IEEE doubles and of the
      [Float32Array] channel data is not modelled.
    - Wall-clock instants ([Date.now()], [setTimeout], [setInterval]) are
      integers [Z] in milliseconds.
    - Mutable objects are records threaded through the functions that
      mutate them; the browser's timer queue, clock and random stream are
      explicit components of the state.
    - The browser provides the Web Audio API: [new AudioContextClass()]
      returns a running context.
    - [history] is a [SessionRecord[]], as its type says: a page is loaded
      over an empty store or over a store that holds one as
      [JSON.stringify] writes it. *)

From Stdlib Require Import ZArith QArith List String Ascii Bool Lia Lqa.
From Stdlib Require Import DecimalString DecimalZ.
Import ListNotations.

Set Implicit Arguments.

(* ================================================================== *)
(** * 1. Brown noise (the buffer loop of [AudioEngine.start])          *)
(* ================================================================== *)

Section Noise.
Local Open Scope Q_scope.

(** [const white = Math.random() * 2 - 1] *)
Definition white (r : Q) : Q := r * 2 - 1.

(** One iteration of the loop body: the new [lastOut] and the value left in
    [data[i]] after [data[i] = lastOut * 3.5; data[i] *= 0.1]. *)
Definition brownStep (lastOut w : Q) : Q * Q :=
  let lastOut := (lastOut + (0.02 * w)) / 1.02 in
  let d := lastOut * 3.5 in
  let d := d * 0.1 in
  (lastOut, d).

(** The [for] loop, one iteration per white value, in order. *)
Fixpoint brownLoop (lastOut : Q) (whites : list Q) : list Q :=
  match whites with
  | [] => []
  | w :: rest =>
      let '(lastOut', d) := brownStep lastOut w in
      d :: brownLoop lastOut' rest
  end.

(** The filter state after the loop (the final [lastOut]). *)
Fixpoint brownState (lastOut : Q) (whites : list Q) : Q :=
  match whites with
  | [] => lastOut
  | w :: rest => brownState (fst (brownStep lastOut w)) rest
  end.

(** The buffer written by one call of [start]: [let lastOut = 0] and one
    [Math.random()] draw per sample. *)
Definition brownBuffer (draws : list Q) : list Q :=
  brownLoop 0 (map white draws).

End Noise.

(* ================================================================== *)
(** * 2. The platform: an [AudioParam] automation timeline             *)
(* ================================================================== *)

(** The program drives [gainNode.gain] through four members of the Web
    Audio [AudioParam] interface: the [value] attribute,
    [cancelScheduledValues], [setValueAtTime] and
    [linearRampToValueAtTime].  The timeline below is the part of that
    interface the program exercises. *)

Inductive EventKind : Type := SetValue | LinearRamp.

Record AutomationEvent : Type := mkEvent {
  ev_kind : EventKind;
  ev_value : Q;
  ev_time : Q
}.

(** [value] is the param's current-value slot: what the getter returns.  It
    is refreshed when audio is rendered ([renderParam]), not when an event
    is scheduled. *)
Record AudioParam : Type := mkParam {
  value : Q;
  events : list AutomationEvent
}.

Section Timeline.
Local Open Scope Q_scope.

Definition isRamp (e : AutomationEvent) : bool :=
  match ev_kind e with LinearRamp => true | SetValue => false end.

(** [e] lies at or after instant [t]. *)
Definition atOrAfter (t : Q) (e : AutomationEvent) : bool :=
  Qle_bool t (ev_time e).

(** [cancelScheduledValues(t)]: every event whose time is [>= t] goes. *)
Definition cancelScheduledValues (t : Q) (p : AudioParam) : AudioParam :=
  mkParam (value p) (filter (fun e => negb (atOrAfter t e)) (events p)).

(** Events are kept in time order; a new event goes after the events that
    are not later than it.  (The program cancels at the same instant
    before it schedules, so it never inserts at an instant that already
    holds an event.) *)
Definition insertEvent (e : AutomationEvent) (evs : list AutomationEvent)
  : list AutomationEvent :=
  filter (fun x => Qle_bool (ev_time x) (ev_time e)) evs
  ++ e :: filter (fun x => negb (Qle_bool (ev_time x) (ev_time e))) evs.

Definition setValueAtTime (v t : Q) (p : AudioParam) : AudioParam :=
  mkParam (value p) (insertEvent (mkEvent SetValue v t) (events p)).

Definition linearRampToValueAtTime (v t : Q) (p : AudioParam) : AudioParam :=
  mkParam (value p) (insertEvent (mkEvent LinearRamp v t) (events p)).

(** [param.value = v] at context time [now]: the slot takes [v] and a
    [setValueAtTime(v, now)] is recorded. *)
Definition assignValue (v now : Q) (p : AudioParam) : AudioParam :=
  setValueAtTime v now (mkParam v (events p)).

(** The value the timeline prescribes at instant [t], reading the events in
    order from the point [(t0, v0)] of the last event passed.  Before a
    [SetValue] event the value holds; before a [LinearRamp] event it is
    interpolated between the last event and the ramp's end. *)
Fixpoint timelineValue (v0 t0 : Q) (evs : list AutomationEvent) (t : Q) : Q :=
  match evs with
  | [] => v0
  | e :: rest =>
      if Qle_bool (ev_time e) t
      then timelineValue (ev_value e) (ev_time e) rest t
      else match ev_kind e with
           | SetValue => v0
           | LinearRamp =>
               v0 + (ev_value e - v0) * ((t - t0) / (ev_time e - t0))
           end
  end.

(** The value of the param at instant [t].  With no event passed yet the
    slot value holds; the program never schedules a ramp as first event. *)
Definition paramValueAt (p : AudioParam) (t : Q) : Q :=
  timelineValue (value p) 0 (events p) t.

(** Rendering at instant [t] refreshes the slot ([Qred] only keeps the
    fraction in lowest terms). *)
Definition renderParam (t : Q) (p : AudioParam) : AudioParam :=
  mkParam (Qred (paramValueAt p t)) (events p).

(** The envelopes (ramps) that are running or still to come at [t]. *)
Definition pendingRamps (t : Q) (p : AudioParam) : list AutomationEvent :=
  filter (fun e => isRamp e && negb (Qle_bool (ev_time e) t)) (events p).

(** The events scheduled at or after [t]. *)
Definition scheduledFrom (t : Q) (p : AudioParam) : list AutomationEvent :=
  filter (atOrAfter t) (events p).

End Timeline.

(* ================================================================== *)
(** * 3. [class AudioEngine]                                           *)
(* ================================================================== *)

(** [ctx] together with [gainNode]: [init] assigns both at once and
    nothing clears either, so one optional component stands for the pair
    and [gain] is [gainNode.gain].  The context is taken to be running: the
    [ctx.resume()] branch of [init] has nothing to do. *)
Record AudioContext : Type := mkContext {
  currentTime : Q;
  sampleRate : N;
  gain : AudioParam
}.

(** The [AudioBufferSourceNode] of one [start].  Its buffer is determined
    by the [Math.random()] draws the loop consumed, recorded here as the
    position of the first draw and the number of samples
    ([getChannelData] below rebuilds the samples). *)
Record BufferSource : Type := mkSource {
  firstDraw : N;
  bufferSize : N;
  loop : bool;
  connected : bool;
  stopped : bool
}.

Record AudioEngine : Type := mkEngine {
  ctx : option AudioContext;
  source : option BufferSource;
  isPlaying : bool
}.

(** The engine inside its host: the pending [setTimeout] callbacks of
    [stop] (their due instants, in ms), the wall clock (ms), the number of
    [Math.random()] draws consumed so far and the sample rate the device
    gives to a new context. *)
Record Host : Type := mkHost {
  engine : AudioEngine;
  timers : list Z;
  clock : Z;
  drawn : N;
  deviceRate : N
}.

Definition newEngine : AudioEngine := mkEngine None None false.

Definition setEngine (e : AudioEngine) (h : Host) : Host :=
  mkHost e (timers h) (clock h) (drawn h) (deviceRate h).

Section Engine.
Local Open Scope Q_scope.

(** A fresh gain node has gain 1. *)
Definition createGain : AudioParam := mkParam 1 [].

(** [init()] *)
Definition init (h : Host) : Host :=
  match ctx (engine h) with
  | None =>
      let c := mkContext 0 (deviceRate h) (assignValue 0.5 0 createGain) in
      setEngine (mkEngine (Some c) (source (engine h)) (isPlaying (engine h))) h
  | Some _ => h
  end.

(** The three gain calls that end [start]: the fade in. *)
Definition fadeIn (now : Q) (g : AudioParam) : AudioParam :=
  let g := cancelScheduledValues now g in
  let g := setValueAtTime 0 now g in
  linearRampToValueAtTime 0.5 (now + 2) g.

(** The three gain calls of [stop]: the fade out from the value read from
    [gain.value]. *)
Definition fadeOut (now : Q) (g : AudioParam) : AudioParam :=
  let g := cancelScheduledValues now g in
  let g := setValueAtTime (value g) now g in
  linearRampToValueAtTime 0 (now + 1) g.

(** [start()] *)
Definition start (h : Host) : Host :=
  let h := match ctx (engine h) with None => init h | Some _ => h end in
  if isPlaying (engine h) then h
  else
    match ctx (engine h) with
    | None => h
    | Some c =>
        let size := (sampleRate c * 5)%N in
        let src := mkSource (drawn h) size true true false in
        let c := mkContext (currentTime c) (sampleRate c)
                           (fadeIn (currentTime c) (gain c)) in
        mkHost (mkEngine (Some c) (Some src) true)
               (timers h) (clock h) (drawn h + size)%N (deviceRate h)
    end.

(** [stop()]: the guard, the fade out, and the timeout of 1000 ms. *)
Definition stop (h : Host) : Host :=
  match isPlaying (engine h), source (engine h), ctx (engine h) with
  | true, Some src, Some c =>
      let c := mkContext (currentTime c) (sampleRate c)
                         (fadeOut (currentTime c) (gain c)) in
      mkHost (mkEngine (Some c) (Some src) true)
             (timers h ++ [(clock h + 1000)%Z]) (clock h) (drawn h)
             (deviceRate h)
  | _, _, _ => h
  end.

(** The callback [stop] hands to [setTimeout]:
    [this.source?.stop(); this.source?.disconnect(); this.isPlaying = false]. *)
Definition onFadeOutTimeout (e : AudioEngine) : AudioEngine :=
  mkEngine (ctx e)
           (option_map (fun s => mkSource (firstDraw s) (bufferSize s)
                                          (loop s) false true)
                       (source e))
           false.

(** Audio time moves with the wall clock and the gain slot is refreshed
    ([Qred] only keeps the fraction in lowest terms). *)
Definition renderAudio (dt : Z) (e : AudioEngine) : AudioEngine :=
  mkEngine
    (option_map
       (fun c =>
          let t := Qred (currentTime c + inject_Z dt / 1000) in
          mkContext t (sampleRate c) (renderParam t (gain c)))
       (ctx e))
    (source e) (isPlaying e).

(** [dt] milliseconds pass: audio is rendered up to the new instant and
    the timeouts that have come due run, in the order they were set. *)
Definition advance (dt : Z) (h : Host) : Host :=
  let now := (clock h + dt)%Z in
  let due := filter (fun d => (d <=? now)%Z) (timers h) in
  let e := fold_left (fun e _ => onFadeOutTimeout e) due
                     (renderAudio dt (engine h)) in
  mkHost e (filter (fun d => negb (d <=? now)%Z) (timers h)) now
         (drawn h) (deviceRate h).

(** The samples of a source's buffer, given the stream of [Math.random()]
    results. *)
Definition getChannelData (random : N -> Q) (s : BufferSource) : list Q :=
  brownBuffer
    (map (fun i => random (firstDraw s + N.of_nat i)%N)
         (seq 0 (N.to_nat (bufferSize s)))).

(** The gain param of the engine, when it has one. *)
Definition engineGain (h : Host) : option AudioParam :=
  option_map gain (ctx (engine h)).

Definition audioTime (h : Host) : Q :=
  match ctx (engine h) with Some c => currentTime c | None => 0 end.

End Engine.

(** Calls a client can make on the engine, and the passage of time. *)
Inductive EngineOp : Type :=
| OpInit
| OpStart
| OpStop
| OpWait (dt : Z).

Definition runOp (o : EngineOp) (h : Host) : Host :=
  match o with
  | OpInit => init h
  | OpStart => start h
  | OpStop => stop h
  | OpWait dt => advance dt h
  end.

Definition runOps (os : list EngineOp) (h : Host) : Host :=
  fold_left (fun h o => runOp o h) os h.

(** Waits are not negative. *)
Definition validOp (o : EngineOp) : Prop :=
  match o with OpWait dt => (0 <= dt)%Z | _ => True end.

(** Total wall-clock time spent by a list of operations. *)
Definition opsDuration (os : list EngineOp) : Z :=
  fold_right (fun o acc => match o with OpWait dt => dt + acc | _ => acc end)%Z
             0%Z os.

(** The host of a freshly loaded page at wall-clock instant [now]. *)
Definition newHost (now : Z) (rate : N) : Host :=
  mkHost newEngine [] now 0%N rate.

(** States the engine can be in: a fresh page followed by any calls. *)
Inductive reachable : Host -> Prop :=
| reach_new : forall now rate, reachable (newHost now rate)
| reach_op : forall h o, reachable h -> validOp o -> reachable (runOp o h).

(* ================================================================== *)
(** * 4. Types of the application                                      *)
(* ================================================================== *)

Local Open Scope string_scope.
Local Open Scope list_scope.
Local Open Scope Z_scope.

(** [type View] *)
Inductive View : Type :=
| view_splash | view_home | view_session | view_history | view_settings.

(** [type SessionPhase = 'entry' | 'immersion' | 'return'] *)
Inductive SessionPhase : Type :=
| phase_entry | phase_immersion | phase_return.

(** [interface SessionRecord] *)
Record SessionRecord : Type := mkRecord {
  id : string;
  date : string;
  duration : Z;
  completed : bool
}.

(** ** Clock readings *)

(** [width] decimal digits of [n], most significant first. *)
Fixpoint padDigits (width : nat) (n : Z) : string :=
  match width with
  | O => ""
  | S k =>
      String.append (padDigits k (n / 10))
                    (String (ascii_of_nat (48 + Z.to_nat (n mod 10))) "")
  end.

(** [new Date(ms).toISOString()] for instants from 1970 to the year 9999:
    [YYYY-MM-DDTHH:mm:ss.sssZ] in the proleptic Gregorian calendar. *)
Definition toISOString (ms : Z) : string :=
  let days := ms / 86400000 in
  let rest := ms mod 86400000 in
  let z := days + 719468 in
  let era := z / 146097 in
  let doe := z - era * 146097 in
  let yoe := (doe - doe / 1460 + doe / 36524 - doe / 146096) / 365 in
  let doy := doe - (365 * yoe + yoe / 4 - yoe / 100) in
  let mp := (5 * doy + 2) / 153 in
  let d := doy - (153 * mp + 2) / 5 + 1 in
  let m := if mp <? 10 then mp + 3 else mp - 9 in
  let y := yoe + era * 400 + (if m <=? 2 then 1 else 0) in
  String.concat ""
    [ padDigits 4 y; "-"; padDigits 2 m; "-"; padDigits 2 d; "T";
      padDigits 2 (rest / 3600000); ":";
      padDigits 2 (rest / 60000 mod 60); ":";
      padDigits 2 (rest / 1000 mod 60); ".";
      padDigits 3 (rest mod 1000); "Z" ].

(** [Date.now().toString()] *)
Definition nowToString (ms : Z) : string :=
  NilZero.string_of_int (Z.to_int ms).

(** ** What [localStorage] holds *)

(** The value whose JSON text is stored; the text itself is not modelled
    ([JSON.parse] gives back the value [JSON.stringify] was given). *)
Set Warnings "-register-all".
Inductive JSON : Type :=
| JNull
| JBool (b : bool)
| JNumber (n : Z)
| JString (s : string)
| JArray (items : list JSON)
| JObject (fields : list (string * JSON)).
Set Warnings "register-all".

Fixpoint getField (k : string) (fields : list (string * JSON)) : option JSON :=
  match fields with
  | [] => None
  | (k', v) :: rest => if String.eqb k k' then Some v else getField k rest
  end.

(** The own properties of a record, in the order the object literal of
    [handleSessionComplete] creates them. *)
Definition recordFields (r : SessionRecord) : list (string * JSON) :=
  [ ("id", JString (id r));
    ("date", JString (date r));
    ("duration", JNumber (duration r));
    ("completed", JBool (completed r)) ].

Definition recordToJSON (r : SessionRecord) : JSON := JObject (recordFields r).

(** The record a parsed object is, when the object is a [SessionRecord] as
    [JSON.stringify] writes one: the own properties [id], [date],
    [duration] and [completed], of these types, in this order and no
    other.  Any other value is not a record of the typed model. *)
Definition recordOfJSON (j : JSON) : option SessionRecord :=
  match j with
  | JObject [(k1, JString i); (k2, JString d); (k3, JNumber n); (k4, JBool c)] =>
      if String.eqb k1 "id" && String.eqb k2 "date"
         && String.eqb k3 "duration" && String.eqb k4 "completed"
      then Some (mkRecord i d n c)
      else None
  | _ => None
  end.

Fixpoint recordsOfJSON (items : list JSON) : option (list SessionRecord) :=
  match items with
  | [] => Some []
  | j :: rest =>
      match recordOfJSON j, recordsOfJSON rest with
      | Some r, Some rs => Some (r :: rs)
      | _, _ => None
      end
  end.

(** [JSON.stringify(history)] *)
Definition stringifyHistory (h : list SessionRecord) : JSON :=
  JArray (map recordToJSON h).

(** [saved ? JSON.parse(saved) : []], where the parsed value is a
    [SessionRecord[]].  The source puts whatever [JSON.parse] returns into
    [history] unchecked (the cast is erased at run time): a stored value
    that is not an array of records stays in [history] as it is, and what
    the components then do with it is not modelled.  Such a store gives
    [None]: no page of this model is loaded from it. *)
Definition loadHistory (saved : option JSON) : option (list SessionRecord) :=
  match saved with
  | None => Some []
  | Some (JArray items) => recordsOfJSON items
  | Some _ => None
  end.

(** ** [SessionView] *)

Definition TOTAL_TIME : Z := 20 * 60.
Definition PHASE_1_END : Z := 2 * 60.
Definition PHASE_2_END : Z := 18 * 60.

(** The state of a mounted [SessionView]: its three state variables in
    use ([timeLeft] is never set), and the interval the timer effect has
    armed, by the instant of its next firing. *)
Record SessionView : Type := mkSession {
  elapsed : Z;
  isActive : bool;
  isAudioOn : bool;
  interval : option Z
}.

(** [const phase = useMemo(...)] *)
Definition phase (elapsed : Z) : SessionPhase :=
  if elapsed <? PHASE_1_END then phase_entry
  else if elapsed <? PHASE_2_END then phase_immersion
  else phase_return.

(** ** [App] and the page *)

(** Calls made on the shared [audioEngine], in order. *)
Inductive EngineCall : Type := CallInit | CallStart | CallStop.

(** [historyChanged] is set by [setHistory] and consumed by the persistence
    effect of the next commit (the effect's dependency is [history]). *)
Record World : Type := mkWorld {
  host : Host;
  view : View;
  history : list SessionRecord;
  historyChanged : bool;
  localStorage : option JSON;
  sessionView : option SessionView;
  calls : list EngineCall
}.

(* ================================================================== *)
(** * 5. The components as state transformers                          *)
(* ================================================================== *)

Definition setHost (h : Host) (w : World) : World :=
  mkWorld h (view w) (history w) (historyChanged w) (localStorage w)
          (sessionView w) (calls w).

Definition setView (v : View) (w : World) : World :=
  mkWorld (host w) v (history w) (historyChanged w) (localStorage w)
          (sessionView w) (calls w).

Definition setHistory (h : list SessionRecord) (w : World) : World :=
  mkWorld (host w) (view w) h true (localStorage w) (sessionView w) (calls w).

Definition setSessionView (s : option SessionView) (w : World) : World :=
  mkWorld (host w) (view w) (history w) (historyChanged w) (localStorage w)
          s (calls w).

Definition logCall (c : EngineCall) (w : World) : World :=
  mkWorld (host w) (view w) (history w) (historyChanged w) (localStorage w)
          (sessionView w) (calls w ++ [c]).

(** [audioEngine.init()], [audioEngine.start()], [audioEngine.stop()] as
    called from the components. *)
Definition audioEngine_init (w : World) : World :=
  logCall CallInit (setHost (init (host w)) w).

Definition audioEngine_start (w : World) : World :=
  logCall CallStart (setHost (start (host w)) w).

Definition audioEngine_stop (w : World) : World :=
  logCall CallStop (setHost (stop (host w)) w).

(** ** [App] *)

(** [handleSessionComplete(duration)] *)
Definition handleSessionComplete (duration : Z) (w : World) : World :=
  let now := clock (host w) in
  let newRecord := mkRecord (nowToString now) (toISOString now) duration true in
  setView view_home (setHistory (history w ++ [newRecord]) w).

(** [handleSessionExit()], given the answer to [window.confirm]. *)
Definition handleSessionExit (confirmed : bool) (w : World) : World :=
  if confirmed then setView view_home w else w.

(** The persistence effect: [localStorage.setItem('bhvd_history',
    JSON.stringify(history))], run by a commit in which [history] changed. *)
Definition persistHistory (w : World) : World :=
  if historyChanged w
  then mkWorld (host w) (view w) (history w) false
               (Some (stringifyHistory (history w))) (sessionView w) (calls w)
  else w.

(** ** [SessionView] *)

(** [handleComplete()] of the render whose state is [s]. *)
Definition handleComplete (s : SessionView) (w : World) : World :=
  handleSessionComplete (elapsed s) (audioEngine_stop w).

(** [clearInterval(interval)]: the cleanup of the timer effect. *)
Definition clearInterval (w : World) : World :=
  match sessionView w with
  | Some s =>
      setSessionView (Some (mkSession (elapsed s) (isActive s) (isAudioOn s) None)) w
  | None => w
  end.

(** [setInterval(..., 1000)] *)
Definition armInterval (w : World) : World :=
  match sessionView w with
  | Some s =>
      setSessionView
        (Some (mkSession (elapsed s) (isActive s) (isAudioOn s)
                         (Some (clock (host w) + 1000)))) w
  | None => w
  end.

(** The body of the timer effect, for the render whose state is [s]. *)
Definition timerEffect (s : SessionView) (w : World) : World :=
  if isActive s && (elapsed s <? TOTAL_TIME) then armInterval w
  else if TOTAL_TIME <=? elapsed s then handleComplete s w
  else w.

(** The body of the audio effect; its cleanup is [audioEngine_stop]. *)
Definition audioEffect (s : SessionView) (w : World) : World :=
  if isActive s && isAudioOn s then audioEngine_start w
  else audioEngine_stop w.

(** [SessionView] leaves the tree: the cleanups of its two effects run. *)
Definition unmountSession (w : World) : World :=
  setSessionView None (audioEngine_stop (clearInterval w)).

(** What React does once the handlers and effect bodies of an update have
    run: a [SessionView] that is no longer rendered is unmounted, then the
    persistence effect of [App] runs if [history] changed. *)
Definition commit (w : World) : World :=
  let w := match sessionView w, view w with
           | Some _, view_session => w
           | Some _, _ => unmountSession w
           | None, _ => w
           end in
  persistHistory w.

(** [SessionView] enters the tree: initial state, then both effects. *)
Definition mountSession (w : World) : World :=
  let s := mkSession 0 true true None in
  audioEffect s (timerEffect s (setSessionView (Some s) w)).

(** ** The page *)

(** First render of [App] on a page loaded at [now], with [loaded] the
    initial value of [history]: the persistence effect runs once. *)
Definition firstRender (now : Z) (rate : N) (loaded : list SessionRecord)
                       (saved : option JSON) : World :=
  persistHistory
    (mkWorld (newHost now rate) view_splash loaded true saved None []).

(** The page is loaded at [now] over the store [saved]: [history] is read
    from [localStorage], then [App] renders.  [None] when the store does
    not hold a [SessionRecord[]] (see [loadHistory]). *)
Definition boot (now : Z) (rate : N) (saved : option JSON) : option World :=
  match loadHistory saved with
  | Some loaded => Some (firstRender now rate loaded saved)
  | None => None
  end.

(** The process restarts: the page is loaded again with what
    [localStorage] holds. *)
Definition restart (w : World) : option World :=
  boot (clock (host w)) (deviceRate (host w)) (localStorage w).

(** What can happen to the page. *)
Inductive Event : Type :=
| SplashDone
| ClickStart
| ClickHistory
| ClickSettings
| ClickBack
| Tick
| TogglePlay
| ToggleAudio
| ClickExit (confirmed : bool)
| Wait (dt : Z).

Definition step (ev : Event) (w : World) : option World :=
  match ev, view w, sessionView w with
  | SplashDone, view_splash, _ => Some (setView view_home w)
  | ClickStart, view_home, None =>
      (* Dashboard.handleStart, then SessionView mounts *)
      Some (commit (mountSession (setView view_session (audioEngine_init w))))
  | ClickHistory, view_home, _ => Some (setView view_history w)
  | ClickSettings, view_home, _ => Some (setView view_settings w)
  | ClickBack, view_history, _ => Some (setView view_home w)
  | ClickBack, view_settings, _ => Some (setView view_home w)
  | Tick, view_session, Some s =>
      match interval s with
      | Some due =>
          if due <=? clock (host w) then
            (* setElapsed(e => e + 1); the timer effect re-runs *)
            let s' := mkSession (elapsed s + 1) (isActive s) (isAudioOn s)
                                (interval s) in
            Some (commit (timerEffect s'
                            (clearInterval (setSessionView (Some s') w))))
          else None
      | None => None
      end
  | TogglePlay, view_session, Some s =>
      (* setIsActive(!isActive); both effects re-run *)
      let s' := mkSession (elapsed s) (negb (isActive s)) (isAudioOn s)
                          (interval s) in
      Some (commit (audioEffect s'
                      (timerEffect s'
                         (audioEngine_stop
                            (clearInterval (setSessionView (Some s') w))))))
  | ToggleAudio, view_session, Some s =>
      (* setIsAudioOn(!isAudioOn); the audio effect re-runs *)
      let s' := mkSession (elapsed s) (isActive s) (negb (isAudioOn s))
                          (interval s) in
      Some (commit (audioEffect s'
                      (audioEngine_stop (setSessionView (Some s') w))))
  | ClickExit confirmed, view_session, Some _ =>
      Some (commit (handleSessionExit confirmed w))
  | Wait dt, _, _ =>
      if 0 <=? dt then Some (setHost (advance dt (host w)) w) else None
  | _, _, _ => None
  end.

Fixpoint run (evs : list Event) (w : World) : option World :=
  match evs with
  | [] => Some w
  | ev :: rest =>
      match step ev w with
      | Some w' => run rest w'
      | None => None
      end
  end.

(** Number of [audioEngine.stop()] calls in a log. *)
Definition countStops (l : list EngineCall) : nat :=
  List.length (filter (fun c => match c with CallStop => true | _ => false end) l).

(** One second of wall-clock time followed by the interval's callback. *)
Definition second : list Event := [Wait 1000; Tick].

Fixpoint seconds (n : nat) : list Event :=
  match n with
  | O => []
  | S k => second ++ seconds k
  end.

(* ================================================================== *)
(** * 6. The specification's vocabulary, for comparison                *)
(* ================================================================== *)

(** The phases the specification names. *)
Inductive SpecPhase : Type := Entry | Immersion | Return | Completed.

Record SessionConfig : Type := mkConfig {
  totalDurationSeconds : Z;
  entryEndSeconds : Z;
  immersionEndSeconds : Z
}.

(** Phase by thresholds, as the specification words it. *)
Definition specPhase (cfg : SessionConfig) (elapsed : Z) : SpecPhase :=
  if elapsed <? entryEndSeconds cfg then Entry
  else if elapsed <? immersionEndSeconds cfg then Immersion
  else if elapsed <? totalDurationSeconds cfg then Return
  else Completed.

(** The configuration of the specification's example scenario. *)
Definition exampleConfig : SessionConfig := mkConfig 1200 120 1080.

Definition phaseAsSpec (p : SessionPhase) : SpecPhase :=
  match p with
  | phase_entry => Entry
  | phase_immersion => Immersion
  | phase_return => Return
  end.

(** Elapsed seconds by wall clock, as the specification words it:
    [floor(now - startedAt)], both instants in ms. *)
Definition wallClockElapsed (startedAt now : Z) : Z :=
  (now - startedAt) / 1000.

(** The specification's durable append: after [append] returns, a reload
    of the persisted log has the record, marked [Pending]. *)
Definition appendIsDurable (seconds : Z) (w : World) : Prop :=
  let w' := handleSessionComplete seconds w in
  exists reloaded r,
    restart w' = Some reloaded /\
    In r (history reloaded) /\
    duration r = seconds /\
    getField "syncState" (recordFields r) = Some (JString "Pending").

(** The specification's completion: the tick that brings [elapsed] to the
    total emits one completed record and invokes [audioEngine.stop()]
    exactly once. *)
Definition completesWithOneStop (w : World) : Prop :=
  exists w' r,
    step Tick w = Some w' /\
    history w' = history w ++ [r] /\
    completed r = true /\
    duration r = TOTAL_TIME /\
    countStops (calls w') = S (countStops (calls w)).

(** The record [handleSessionComplete] builds at wall-clock instant [now]. *)
Definition completedRecord (now duration : Z) : SessionRecord :=
  mkRecord (nowToString now) (toISOString now) duration true.

(** Callbacks of the interval among a list of events. *)
Definition countTicks (evs : list Event) : Z :=
  Z.of_nat (List.length
              (filter (fun ev => match ev with Tick => true | _ => false end)
                      evs)).

(** Events that only let time pass or deliver the interval's callback. *)
Definition timePassing (ev : Event) : Prop :=
  match ev with Tick | Wait _ => True | _ => False end.

(** ** Sample states *)

Definition afterRun (evs : list Event) (w : World) : World :=
  match run evs w with Some w' => w' | None => w end.

(** A page loaded on 2023-11-14 with an empty store, on a 44.1 kHz device. *)
Definition samplePage : World := firstRender 1700000000000 44100 [] None.

(** A history of one session completed on 2023-07-22, and the page loaded
    over the store that holds it. *)
Definition sampleHistory : list SessionRecord :=
  [completedRecord 1690000000000 1200].

Definition sampleReturningPage : World :=
  firstRender 1700000000000 44100 sampleHistory
              (Some (stringifyHistory sampleHistory)).

(** A session started on that page, with its last tick due. *)
Definition sampleReturningLastSecond : World :=
  afterRun (SplashDone :: ClickStart :: seconds 1199 ++ [Wait 1000])
           sampleReturningPage.

(** A session just started from the dashboard. *)
Definition sampleSession : World :=
  afterRun [SplashDone; ClickStart] samplePage.

(** The same session 1199 ticks later, with the last interval due. *)
Definition sampleLastSecond : World :=
  afterRun (seconds 1199 ++ [Wait 1000]) sampleSession.

(** An engine that has been playing for three seconds. *)
Definition samplePlaying : Host :=
  runOps [OpStart; OpWait 3000] (newHost 0 44100).

(** ** Predicates of the statements *)

(** The range of a white-noise input, and of a generated sample. *)
Definition unitRange (x : Q) : Prop := (-1 <= x <= 1)%Q.
Definition gentleRange (x : Q) : Prop := (-0.35 <= x <= 0.35)%Q.

(** The context [start] works on: the engine's own, or the one [init]
    creates for it. *)
Definition contextForStart (h : Host) : AudioContext :=
  match ctx (engine h) with
  | Some c => c
  | None => mkContext 0 (deviceRate h) (assignValue 0.5 0 createGain)
  end.

(** At most one envelope is running or pending on the gain. *)
Definition oneEnvelope (h : Host) : Prop :=
  match ctx (engine h) with
  | Some c => (List.length (pendingRamps (currentTime c) (gain c)) <= 1)%nat
  | None => True
  end.

(** [stop] is past its guard: the engine is playing a source on a context. *)
Definition stopTakesEffect (h : Host) : Prop :=
  isPlaying (engine h) = true /\
  source (engine h) <> None /\
  ctx (engine h) <> None.

(** The engine is inside the fade-out window that closes at wall-clock
    instant [T]: still flagged as playing, no timeout due before [T]. *)
Definition fadingOutUntil (T : Z) (h : Host) : Prop :=
  isPlaying (engine h) = true /\
  ctx (engine h) <> None /\
  T - 1000 <= clock h < T /\
  Forall (fun d => T <= d) (timers h).

(** [start], two seconds of playback, [stop], and half a second of the
    fade-out. *)
Definition sampleFadingOut : Host :=
  runOps [OpStart; OpWait 2000; OpStop; OpWait 500] (newHost 0 44100).

(** The same, then a second [stop] and 600 ms more: the timeout of the
    first [stop] has run, the one of the second is still pending. *)
Definition sampleSecondFadeOut : Host :=
  runOps [OpStop; OpWait 600] sampleFadingOut.

(** The same, then [start] and 400 ms more: the timeout of the second
    [stop] has run during the new fade-in. *)
Definition sampleStaleTimeout : Host :=
  runOps [OpStart; OpWait 400] sampleSecondFadeOut.

(** A fade-in is in flight: a ramp upwards is running or pending on the
    gain. *)
Definition fadeInInFlight (h : Host) : Prop :=
  exists g e,
    engineGain h = Some g /\
    In e (pendingRamps (audioTime h) g) /\
    (0 < ev_value e)%Q.

(** The specification's cancellation, for a [stop] called on [h]: what is
    scheduled on the gain from the instant of the call is a fade-out alone,
    which starts from the gain the timeline has at that instant and
    reaches 0 one second later. *)
Definition stopFadesFromCurrentGain (h : Host) : Prop :=
  exists g g2 v,
    engineGain h = Some g /\
    engineGain (stop h) = Some g2 /\
    (v == paramValueAt g (audioTime h))%Q /\
    scheduledFrom (audioTime h) g2
    = [mkEvent SetValue v (audioTime h);
       mkEvent LinearRamp 0 (audioTime h + 1)%Q].

(* ================================================================== *)
(** * 6a. What the views display                                       *)
(* ================================================================== *)

(** [n.toString()] for an integer-valued number. *)
Definition toString (n : Z) : string := NilZero.string_of_int (Z.to_int n).

(** [s.padStart(width, c)] for a one-character filler [c]. *)
Definition padStart (width : nat) (c : ascii) (s : string) : string :=
  String.append (string_of_list_ascii (repeat c (width - String.length s))) s.

(** [formatTime(seconds)]: [Math.floor(seconds / 60)] is the floor
    quotient, [seconds % 60] the remainder with the sign of [seconds]. *)
Definition formatTime (seconds : Z) : string :=
  let m := seconds / 60 in
  let s := Z.rem seconds 60 in
  String.concat "" [padStart 2 "0" (toString m); ":";
                    padStart 2 "0" (toString s)].

(** The clock face of [SessionView]: [formatTime(TOTAL_TIME - elapsed)]. *)
Definition timeDisplay (s : SessionView) : string :=
  formatTime (TOTAL_TIME - elapsed s).

(** [const progress = (elapsed / TOTAL_TIME) * 100] *)
Definition progress (s : SessionView) : Q :=
  (inject_Z (elapsed s) / inject_Z TOTAL_TIME * 100)%Q.

(** The [phases] array of [PhaseIndicator], by the phase each [id] names. *)
Definition phases : list (SessionPhase * string) :=
  [ (phase_entry, "Entry");
    (phase_immersion, "Immersion");
    (phase_return, "Return") ].

(** [currentPhase === p.id] *)
Definition samePhase (a b : SessionPhase) : bool :=
  match a, b with
  | phase_entry, phase_entry => true
  | phase_immersion, phase_immersion => true
  | phase_return, phase_return => true
  | _, _ => false
  end.

(** [PhaseIndicator]: one segment per entry of [phases], with its label and
    whether it is rendered highlighted. *)
Definition PhaseIndicator (currentPhase : SessionPhase) : list (string * bool) :=
  map (fun p => (snd p, samePhase currentPhase (fst p))) phases.

(** [setElapsed(e => e + 1)]: the state the interval's callback leaves
    [SessionView] to be rendered with.  React commits that render to the
    screen before the effects of the render run, so it is displayed also
    when the timer effect then completes the session and the view is
    unmounted. *)
Definition afterTick (s : SessionView) : SessionView :=
  mkSession (elapsed s + 1) (isActive s) (isAudioOn s) (interval s).


Definition streak (history : list SessionRecord) : nat :=
  match history with
  | [] => 0%nat
  | _ => List.length history
  end.

(** [HistoryView]: the text of a row's duration,
    [`${Math.floor(duration / 60)}m ${duration % 60}s`]. *)
Definition durationLabel (d : Z) : string :=
  String.concat "" [toString (d / 60); "m "; toString (Z.rem d 60); "s"].

(** The rows of [HistoryView], top to bottom
    ([history.slice().reverse().map(...)]): per row the record's date, the
    duration text and whether the check mark is shown. *)
Definition HistoryView (history : list SessionRecord)
  : list (string * string * bool) :=
  map (fun session =>
         (date session, durationLabel (duration session), completed session))
      (rev history).

(** ** Reading a clock face back *)

Definition digitValue (c : ascii) : option Z :=
  let n := Z.of_nat (nat_of_ascii c) in
  if (48 <=? n) && (n <=? 57) then Some (n - 48) else None.

(** The seconds a five-character [MM:SS] text stands for. *)
Definition readClock (s : string) : option Z :=
  match list_ascii_of_string s with
  | [m1; m0; colon; s1; s0] =>
      match digitValue m1, digitValue m0, digitValue s1, digitValue s0 with
      | Some a, Some b, Some c, Some d =>
          if Ascii.eqb colon ":" && (c <? 6)
          then Some ((10 * a + b) * 60 + (10 * c + d))
          else None
      | _, _, _, _ => None
      end
  | _ => None
  end.

(** ** Pages between events *)

(** What holds of the page whenever no handler or effect is running. *)
Record settled (w : World) : Prop := mkSettled {
  settled_mounted :
    sessionView w <> None <-> view w = view_session;
  settled_elapsed :
    forall s, sessionView w = Some s -> 0 <= elapsed s < TOTAL_TIME;
  settled_interval :
    forall s, sessionView w = Some s ->
              (isActive s = true ->
               exists due, interval s = Some due /\
                           due <= clock (host w) + 1000) /\
              (isActive s = false -> interval s = None);
  settled_flag : historyChanged w = false;
  settled_store : localStorage w = Some (stringifyHistory (history w));
  settled_host : reachable (host w)
}.

(** The gain stays between silence and the default volume. *)
Definition volumeRange (x : Q) : Prop := (0 <= x <= 1 # 2)%Q.

Definition gainInRange (h : Host) : Prop :=
  match ctx (engine h) with
  | Some c =>
      (0 <= currentTime c)%Q /\
      volumeRange (value (gain c)) /\
      Forall (fun e => volumeRange (ev_value e)) (events (gain c))
  | None => True
  end.

(** The flag tells the truth about the source: playing means a source that
    is connected and not stopped, on a context; not playing means no
    source, or one that has been stopped and disconnected. *)
Definition flagMatchesEngine (e : AudioEngine) : Prop :=
  match source e with
  | Some s =>
      connected s = isPlaying e /\
      stopped s = negb (isPlaying e) /\
      loop s = true /\
      ctx e <> None
  | None => isPlaying e = false
  end.

Definition flagMatchesSource (h : Host) : Prop := flagMatchesEngine (engine h).

(** Every pending timeout comes due within a second. *)
Definition timersWithinSecond (h : Host) : Prop :=
  Forall (fun d => d <= clock h + 1000) (timers h).

(** The index of a phase in [phases]. *)
Definition phaseIndex (p : SessionPhase) : Z :=
  match p with
  | phase_entry => 0
  | phase_immersion => 1
  | phase_return => 2
  end.

(** A session that has run for a while, paused and resumed within the
    same second. *)
Definition sampleQuickResume : World :=
  afterRun (seconds 5 ++ [TogglePlay; Wait 400; TogglePlay]) sampleSession.

(* ================================================================== *)
(** * 7. Brown noise: bounds and determinism                           *)
(* ================================================================== *)

Section NoiseFacts.
Local Open Scope Q_scope.

Lemma brownStep_state : forall lastOut w,
  unitRange lastOut -> unitRange w -> unitRange (fst (brownStep lastOut w)).
Proof.
  unfold unitRange, brownStep; simpl; intros lastOut w Hl Hw.
  assert (E : (lastOut + 0.02 * w) / 1.02 == (lastOut + 0.02 * w) * (50 # 51))
    by field.
  rewrite E. lra.
Qed.

Lemma brownStep_sample : forall lastOut w,
  unitRange lastOut -> unitRange w -> gentleRange (snd (brownStep lastOut w)).
Proof.
  intros lastOut w Hl Hw.
  pose proof (brownStep_state Hl Hw) as H.
  unfold unitRange, gentleRange, brownStep in *; simpl in *. lra.
Qed.

Lemma brownLoop_cons : forall lastOut w rest,
  brownLoop lastOut (w :: rest)
  = snd (brownStep lastOut w) :: brownLoop (fst (brownStep lastOut w)) rest.
Proof. reflexivity. Qed.

Lemma brownLoop_gentle : forall whites lastOut,
  unitRange lastOut -> Forall unitRange whites ->
  Forall gentleRange (brownLoop lastOut whites).
Proof.
  induction whites as [|w rest IH]; intros lastOut Hl Hw.
  - constructor.
  - rewrite brownLoop_cons. inversion Hw; subst. constructor.
    + now apply brownStep_sample.
    + apply IH; [now apply brownStep_state | assumption].
Qed.

Lemma brownLoop_length : forall whites lastOut,
  List.length (brownLoop lastOut whites) = List.length whites.
Proof.
  induction whites as [|w rest IH]; intros lastOut; [reflexivity|].
  rewrite brownLoop_cons. simpl. now rewrite IH.
Qed.

(** The first [n] samples depend on the first [n] inputs only. *)
Lemma brownLoop_prefix : forall n ws1 ws2 lastOut,
  firstn n ws1 = firstn n ws2 ->
  firstn n (brownLoop lastOut ws1) = firstn n (brownLoop lastOut ws2).
Proof.
  induction n as [|n IH]; intros ws1 ws2 lastOut H; [reflexivity|].
  destruct ws1 as [|a r1], ws2 as [|b r2]; simpl in H; try discriminate;
    [reflexivity|].
  injection H as -> H. rewrite !brownLoop_cons. simpl. f_equal. now apply IH.
Qed.

(** Filling a block and then another from the state the first one left
    is filling both at once. *)
Lemma brownLoop_app : forall ws1 ws2 lastOut,
  brownLoop lastOut (ws1 ++ ws2)
  = brownLoop lastOut ws1 ++ brownLoop (brownState lastOut ws1) ws2.
Proof.
  induction ws1 as [|w ws1 IH]; intros ws2 lastOut; [reflexivity|].
  rewrite <- app_comm_cons, !brownLoop_cons. cbn [brownState app].
  now rewrite IH.
Qed.

Lemma brownLoop_from_zero_gentle : forall whites,
  Forall unitRange whites -> Forall gentleRange (brownLoop 0 whites).
Proof.
  intros whites Hw. apply brownLoop_gentle; [unfold unitRange; lra | exact Hw].
Qed.

(** C9.  Started from [lastOut = 0] on white inputs in [-1, 1], the noise
    loop yields one sample per input, every sample lies in [-0.35, 0.35]
    however long the run, and the samples are a function of the inputs:
    runs that agree on their first [n] inputs agree on their first [n]
    samples.  Arithmetic is exact (rationals). *)
Theorem brown_noise_bounded_and_deterministic : forall whites,
  Forall unitRange whites ->
  List.length (brownLoop 0 whites) = List.length whites /\
  Forall gentleRange (brownLoop 0 whites) /\
  (forall whites' n,
     firstn n whites' = firstn n whites ->
     firstn n (brownLoop 0 whites') = firstn n (brownLoop 0 whites)).
Proof.
  intros whites Hw. split; [apply brownLoop_length|]. split.
  - apply brownLoop_gentle; [unfold unitRange; lra | assumption].
  - intros whites' n H. now apply brownLoop_prefix.
Qed.

Lemma brown_noise_bounded_and_deterministic_witness :
  Forall unitRange [1; -1; 1 # 2] /\
  List.length (brownLoop 0 [1; -1; 1 # 2]) = 3%nat /\
  Forall gentleRange (brownLoop 0 [1; -1; 1 # 2]).
Proof.
  assert (H : Forall unitRange [1; -1; 1 # 2])
    by (repeat constructor; unfold unitRange; simpl; lra).
  split; [exact H|].
  destruct (brown_noise_bounded_and_deterministic H) as (Hl & Hg & _).
  split; [exact Hl | exact Hg].
Defined.

(** The buffer of every source [start] creates is within range, for a
    random stream in the unit interval. *)
Lemma getChannelData_gentle : forall random s,
  (forall i, 0 <= random i <= 1) ->
  Forall gentleRange (getChannelData random s).
Proof.
  intros random s Hr. unfold getChannelData, brownBuffer.
  apply brownLoop_from_zero_gentle.
  apply Forall_forall. intros w Hw.
  apply in_map_iff in Hw as (r & <- & Hin).
  apply in_map_iff in Hin as (i & <- & _).
  specialize (Hr (firstDraw s + N.of_nat i)%N).
  unfold unitRange, white. lra.
Qed.

End NoiseFacts.

(* ================================================================== *)
(** * 8. Facts about the automation timeline                           *)
(* ================================================================== *)

Section TimelineFacts.
Local Open Scope Q_scope.

Lemma filter_all : forall (A : Type) (f : A -> bool) (l : list A),
  Forall (fun x => f x = true) l -> filter f l = l.
Proof.
  induction l as [|a l IH]; intros H; [reflexivity|].
  inversion H; subst. simpl. rewrite H2. f_equal. now apply IH.
Qed.

Lemma filter_none : forall (A : Type) (f : A -> bool) (l : list A),
  Forall (fun x => f x = false) l -> filter f l = [].
Proof.
  induction l as [|a l IH]; intros H; [reflexivity|].
  inversion H; subst. simpl. rewrite H2. now apply IH.
Qed.

Lemma filter_length_mono : forall (A : Type) (f g : A -> bool) (l : list A),
  (forall x, f x = true -> g x = true) ->
  (List.length (filter f l) <= List.length (filter g l))%nat.
Proof.
  intros A f g l Hfg. induction l as [|a l IH]; [apply le_n|].
  simpl. destruct (f a) eqn:Ef.
  - rewrite (Hfg a Ef). simpl. now apply le_n_S.
  - destruct (g a); simpl; [apply le_S|]; exact IH.
Qed.

Lemma Qle_bool_false : forall x y, Qle_bool x y = false <-> y < x.
Proof.
  intros x y. rewrite <- not_true_iff_false, Qle_bool_iff.
  split; [apply Qnot_le_lt | apply Qlt_not_le].
Qed.

(** What [cancelScheduledValues(t)] keeps lies strictly before [t]. *)
Lemma cancel_keeps_earlier : forall t p,
  Forall (fun e => ev_time e < t) (events (cancelScheduledValues t p)).
Proof.
  intros t p. unfold cancelScheduledValues; simpl.
  apply Forall_forall. intros e He. apply filter_In in He as [_ He].
  unfold atOrAfter in He. apply negb_true_iff in He.
  now apply Qle_bool_false.
Qed.

Lemma insertEvent_last : forall e evs,
  Forall (fun x => ev_time x <= ev_time e) evs ->
  insertEvent e evs = evs ++ [e].
Proof.
  intros e evs H. unfold insertEvent.
  rewrite filter_all, filter_none; [reflexivity| |].
  - eapply Forall_impl; [|exact H]. simpl; intros x Hx.
    apply negb_false_iff. now apply Qle_bool_iff.
  - eapply Forall_impl; [|exact H]. simpl; intros x Hx.
    now apply Qle_bool_iff.
Qed.

(** The events a param holds once the program has cancelled at [t], set a
    value at [t] and scheduled a ramp ending [d] later. *)
Lemma envelope_events : forall t d v target p,
  0 <= d ->
  events (linearRampToValueAtTime target (t + d)
            (setValueAtTime v t (cancelScheduledValues t p)))
  = events (cancelScheduledValues t p)
    ++ [mkEvent SetValue v t; mkEvent LinearRamp target (t + d)].
Proof.
  intros t d v target p Hd.
  pose proof (cancel_keeps_earlier t p) as Hk.
  unfold linearRampToValueAtTime, setValueAtTime.
  cbn [events value]. rewrite (insertEvent_last (mkEvent SetValue v t)).
  - rewrite insertEvent_last; [now rewrite <- app_assoc|].
    apply Forall_app; split.
    + eapply Forall_impl; [|exact Hk]. simpl; intros x Hx. lra.
    + repeat constructor. simpl. lra.
  - eapply Forall_impl; [|exact Hk]. simpl; intros x Hx. lra.
Qed.

Lemma fadeIn_events : forall t g,
  events (fadeIn t g)
  = events (cancelScheduledValues t g)
    ++ [mkEvent SetValue 0 t; mkEvent LinearRamp 0.5 (t + 2)].
Proof. intros. unfold fadeIn. apply envelope_events. lra. Qed.

Lemma fadeOut_events : forall t g,
  events (fadeOut t g)
  = events (cancelScheduledValues t g)
    ++ [mkEvent SetValue (value g) t; mkEvent LinearRamp 0 (t + 1)].
Proof. intros. unfold fadeOut. apply envelope_events. lra. Qed.

(** When a param holds [earlier ++ [set at t; ramp ending at t + d]], what
    is scheduled from [t] on is that envelope alone. *)
Lemma scheduledFrom_envelope : forall t d v target earlier p,
  0 <= d ->
  Forall (fun e => ev_time e < t) earlier ->
  events p = earlier ++ [mkEvent SetValue v t;
                         mkEvent LinearRamp target (t + d)] ->
  scheduledFrom t p
  = [mkEvent SetValue v t; mkEvent LinearRamp target (t + d)].
Proof.
  intros t d v target earlier p Hd He Hp. unfold scheduledFrom. rewrite Hp.
  rewrite filter_app, filter_none.
  - simpl. unfold atOrAfter; simpl.
    assert (H1 : Qle_bool t t = true) by (apply Qle_bool_iff; lra).
    assert (H2 : Qle_bool t (t + d) = true) by (apply Qle_bool_iff; lra).
    now rewrite H1, H2.
  - eapply Forall_impl; [|exact He]. simpl; intros e Hx.
    unfold atOrAfter. now apply Qle_bool_false.
Qed.

(** ... and exactly one ramp is pending at [t]. *)
Lemma pendingRamps_envelope : forall t d v target earlier p,
  0 < d ->
  Forall (fun e => ev_time e < t) earlier ->
  events p = earlier ++ [mkEvent SetValue v t;
                         mkEvent LinearRamp target (t + d)] ->
  pendingRamps t p = [mkEvent LinearRamp target (t + d)].
Proof.
  intros t d v target earlier p Hd He Hp. unfold pendingRamps. rewrite Hp.
  rewrite filter_app, filter_none.
  - simpl. unfold isRamp; simpl.
    assert (H2 : Qle_bool (t + d) t = false) by (apply Qle_bool_false; lra).
    now rewrite H2.
  - eapply Forall_impl; [|exact He]. simpl; intros e Hx.
    apply andb_false_iff. right. apply negb_false_iff.
    apply Qle_bool_iff. lra.
Qed.

(** Later on, no more ramps are pending than before. *)
Lemma pendingRamps_later : forall t t' p p',
  t <= t' ->
  events p' = events p ->
  (List.length (pendingRamps t' p') <= List.length (pendingRamps t p))%nat.
Proof.
  intros t t' p p' Ht Hp. unfold pendingRamps. rewrite Hp.
  apply filter_length_mono. intros e He.
  apply andb_true_iff in He as [Hr Hl]. apply andb_true_iff. split; [exact Hr|].
  apply negb_true_iff in Hl. apply negb_true_iff.
  apply Qle_bool_false in Hl. apply Qle_bool_false. lra.
Qed.

(** Reading the timeline at [t] past events that are not later than [t]
    and a [SetValue] at [ts <= t]: only what follows the set matters. *)
Lemma timelineValue_after_set : forall earlier v0 t0 v ts rest t,
  Forall (fun e => ev_time e <= t) earlier ->
  ts <= t ->
  timelineValue v0 t0 (earlier ++ mkEvent SetValue v ts :: rest) t
  = timelineValue v ts rest t.
Proof.
  induction earlier as [|e earlier IH]; intros v0 t0 v ts rest t He Hts.
  - simpl. apply Qle_bool_iff in Hts. now rewrite Hts.
  - inversion He; subst. simpl.
    apply Qle_bool_iff in H1. rewrite H1. now apply IH.
Qed.

(** The value along a ramp from [(ts, v)] to [(te, target)]. *)
Lemma timelineValue_ramp : forall v ts target te t,
  t < te ->
  timelineValue v ts [mkEvent LinearRamp target te] t
  = v + (target - v) * ((t - ts) / (te - ts)).
Proof.
  intros v ts target te t Ht. simpl.
  apply Qle_bool_false in Ht. now rewrite Ht.
Qed.

Lemma timelineValue_ramp_done : forall v ts target te t,
  te <= t ->
  timelineValue v ts [mkEvent LinearRamp target te] t = target.
Proof.
  intros v ts target te t Ht. simpl.
  apply Qle_bool_iff in Ht. now rewrite Ht.
Qed.

End TimelineFacts.

(* ================================================================== *)
(** * 9. Facts about the engine                                        *)
(* ================================================================== *)

Section EngineFacts.
Local Open Scope Q_scope.

(** ** The methods, case by case *)

Lemma start_when_idle : forall h,
  isPlaying (engine h) = false ->
  let c := contextForStart h in
  start h
  = mkHost
      (mkEngine
         (Some (mkContext (currentTime c) (sampleRate c)
                          (fadeIn (currentTime c) (gain c))))
         (Some (mkSource (drawn h) (sampleRate c * 5)%N true true false))
         true)
      (timers h) (clock h) (drawn h + sampleRate c * 5)%N (deviceRate h).
Proof.
  intros h Hp. unfold start, init, contextForStart.
  destruct (ctx (engine h)) as [c|] eqn:Ec; cbn; rewrite Hp; [now rewrite Ec|].
  reflexivity.
Qed.

Lemma start_when_playing : forall h,
  isPlaying (engine h) = true -> ctx (engine h) <> None -> start h = h.
Proof.
  intros h Hp Hc. unfold start.
  destruct (ctx (engine h)) as [c|]; [|contradiction]. now rewrite Hp.
Qed.

Lemma stop_when_playing : forall h src c,
  isPlaying (engine h) = true ->
  source (engine h) = Some src ->
  ctx (engine h) = Some c ->
  stop h
  = mkHost
      (mkEngine
         (Some (mkContext (currentTime c) (sampleRate c)
                          (fadeOut (currentTime c) (gain c))))
         (Some src) true)
      (timers h ++ [(clock h + 1000)%Z]) (clock h) (drawn h) (deviceRate h).
Proof. intros h src c Hp Hs Hc. unfold stop. now rewrite Hp, Hs, Hc. Qed.

Lemma stop_clock : forall h, clock (stop h) = clock h.
Proof.
  intros h. unfold stop.
  destruct (isPlaying (engine h)), (source (engine h)), (ctx (engine h));
    reflexivity.
Qed.

Lemma stop_when_idle : forall h,
  isPlaying (engine h) = false -> stop h = h.
Proof. intros h Hp. unfold stop. now rewrite Hp. Qed.

Lemma init_with_context : forall h,
  ctx (engine h) <> None -> init h = h.
Proof.
  intros h Hc. unfold init. destruct (ctx (engine h)); [reflexivity|contradiction].
Qed.

(** The timeouts leave the context alone, keep a source a source, and
    clear [isPlaying] as soon as one of them runs. *)
Lemma timeouts_ctx : forall (due : list Z) e,
  ctx (fold_left (fun e _ => onFadeOutTimeout e) due e) = ctx e.
Proof.
  induction due as [|d due IH]; intros e; [reflexivity|].
  simpl. now rewrite IH.
Qed.

Lemma timeouts_source : forall (due : list Z) e,
  source e <> None ->
  source (fold_left (fun e _ => onFadeOutTimeout e) due e) <> None.
Proof.
  induction due as [|d due IH]; intros e He; [exact He|].
  simpl. apply IH. simpl. destruct (source e); [discriminate|contradiction].
Qed.

Lemma timeouts_isPlaying : forall (due : list Z) e,
  due <> [] ->
  isPlaying (fold_left (fun e _ => onFadeOutTimeout e) due e) = false.
Proof.
  induction due as [|d due IH]; intros e Hd; [contradiction|].
  simpl. destruct due as [|d' due']; [reflexivity|].
  apply IH. discriminate.
Qed.

Lemma advance_ctx : forall dt h,
  ctx (engine (advance dt h))
  = option_map
      (fun c =>
         let t := Qred (currentTime c + inject_Z dt / 1000) in
         mkContext t (sampleRate c) (renderParam t (gain c)))
      (ctx (engine h)).
Proof. intros dt h. unfold advance. cbn [engine]. now rewrite timeouts_ctx. Qed.

Lemma advance_source : forall dt h,
  source (engine h) <> None -> source (engine (advance dt h)) <> None.
Proof. intros dt h H. unfold advance. cbn [engine]. now apply timeouts_source. Qed.

Lemma audio_clock_moves_on : forall t dt,
  (0 <= dt)%Z -> t <= Qred (t + inject_Z dt / 1000).
Proof.
  intros t dt Hdt. rewrite Qred_correct. rewrite Zle_Qle in Hdt.
  change (inject_Z 0) with 0 in Hdt.
  unfold Qdiv. change (/ 1000) with (1 # 1000). lra.
Qed.

(** ** At most one envelope *)

Lemma oneEnvelope_init : forall h, oneEnvelope h -> oneEnvelope (init h).
Proof.
  intros h H. unfold init, oneEnvelope in *.
  destruct (ctx (engine h)) as [c|] eqn:Ec; [now rewrite Ec|].
  cbn. apply le_S, le_n.
Qed.

Lemma oneEnvelope_start : forall h, oneEnvelope h -> oneEnvelope (start h).
Proof.
  intros h H. destruct (isPlaying (engine h)) eqn:Hp.
  - unfold start. destruct (ctx (engine h)) as [c|] eqn:Ec.
    + now rewrite Hp.
    + assert (Hi : isPlaying (engine (init h)) = true)
        by (unfold init; rewrite Ec; exact Hp).
      rewrite Hi. now apply oneEnvelope_init.
  - rewrite (start_when_idle h Hp). unfold oneEnvelope.
    cbn [ctx engine currentTime gain].
    erewrite pendingRamps_envelope;
      [apply le_n | | apply cancel_keeps_earlier | apply fadeIn_events]. lra.
Qed.

Lemma oneEnvelope_stop : forall h, oneEnvelope h -> oneEnvelope (stop h).
Proof.
  intros h H. unfold stop.
  destruct (isPlaying (engine h)); [|exact H].
  destruct (source (engine h)) as [src|]; [|exact H].
  destruct (ctx (engine h)) as [c|] eqn:Ec; [|exact H].
  unfold oneEnvelope. cbn [ctx engine currentTime gain].
  erewrite pendingRamps_envelope;
    [apply le_n | | apply cancel_keeps_earlier | apply fadeOut_events]. lra.
Qed.

Lemma oneEnvelope_advance : forall dt h,
  (0 <= dt)%Z -> oneEnvelope h -> oneEnvelope (advance dt h).
Proof.
  intros dt h Hdt H. unfold oneEnvelope in *. rewrite advance_ctx.
  destruct (ctx (engine h)) as [c|]; [|exact I].
  cbn [option_map currentTime gain].
  eapply Nat.le_trans; [|exact H].
  apply pendingRamps_later; [now apply audio_clock_moves_on | reflexivity].
Qed.

Lemma reachable_oneEnvelope : forall h, reachable h -> oneEnvelope h.
Proof.
  induction 1 as [now rate | h o Hr IH Hv].
  - exact I.
  - destruct o; simpl.
    + now apply oneEnvelope_init.
    + now apply oneEnvelope_start.
    + now apply oneEnvelope_stop.
    + now apply oneEnvelope_advance.
Qed.

Lemma reachable_runOps : forall ops h,
  Forall validOp ops -> reachable h -> reachable (runOps ops h).
Proof.
  induction ops as [|o ops IH]; intros h Hv Hr; [exact Hr|].
  inversion Hv; subst. unfold runOps; simpl. apply IH; [assumption|].
  now apply reach_op.
Qed.

End EngineFacts.

(* ================================================================== *)
(** * 10. The engine's envelopes                                       *)
(* ================================================================== *)

Section EnvelopeClaims.
Local Open Scope Q_scope.

(** C7.  In every state the engine can reach, at most one gain ramp is
    running or pending.  Both operations that schedule an envelope cancel
    first: after a [start] that starts, what is scheduled from the current
    instant on is the fade-in alone (set 0, ramp to 0.5 two seconds later),
    and after a [stop] that passes its guard it is the fade-out alone (set
    the value read from the gain, ramp to 0 one second later). *)
Theorem at_most_one_gain_envelope : forall h,
  reachable h ->
  oneEnvelope h /\
  (isPlaying (engine h) = false ->
   let t := audioTime (start h) in
   option_map (scheduledFrom t) (engineGain (start h))
   = Some [mkEvent SetValue 0 t; mkEvent LinearRamp 0.5 (t + 2)]) /\
  (forall c,
     ctx (engine h) = Some c ->
     isPlaying (engine h) = true ->
     source (engine h) <> None ->
     let t := currentTime c in
     option_map (scheduledFrom t) (engineGain (stop h))
     = Some [mkEvent SetValue (value (gain c)) t;
             mkEvent LinearRamp 0 (t + 1)]).
Proof.
  intros h Hr. split; [now apply reachable_oneEnvelope|]. split.
  - intros Hp. rewrite (start_when_idle h Hp).
    unfold audioTime, engineGain.
    cbn [ctx engine option_map gain currentTime]. f_equal.
    eapply scheduledFrom_envelope;
      [ | apply cancel_keeps_earlier | apply fadeIn_events]. lra.
  - intros c Hc Hp Hs. destruct (source (engine h)) as [src|] eqn:Es;
      [|contradiction].
    rewrite (stop_when_playing h Hp Es Hc). unfold engineGain.
    cbn [ctx engine option_map gain currentTime]. f_equal.
    eapply scheduledFrom_envelope;
      [ | apply cancel_keeps_earlier | apply fadeOut_events]. lra.
Qed.

Lemma at_most_one_gain_envelope_witness :
  reachable samplePlaying /\ oneEnvelope samplePlaying /\
  option_map (scheduledFrom 3) (engineGain (stop samplePlaying))
  = Some [mkEvent SetValue (1 # 2) 3; mkEvent LinearRamp 0 (3 + 1)].
Proof.
  assert (Hr : reachable samplePlaying).
  { apply reachable_runOps; [|apply reach_new].
    repeat constructor. simpl. lia. }
  split; [exact Hr|].
  destruct (at_most_one_gain_envelope Hr) as (H1 & _ & H3).
  split; [exact H1|].
  exact (H3 (mkContext 3 44100
               (mkParam (1 # 2) [mkEvent SetValue 0 0;
                                 mkEvent LinearRamp 0.5 (0 + 2)]))
            eq_refl eq_refl ltac:(discriminate)).
Defined.

(** The gain the audio thread has reached [dt] ms into a fade-in. *)
Lemma fade_in_partial_gain : forall t0 g dt t1,
  (0 <= dt < 2000)%Z ->
  t1 == t0 + inject_Z dt / 1000 ->
  paramValueAt (fadeIn t0 g) t1 == inject_Z dt / 4000.
Proof.
  intros t0 g dt t1 [Hlo Hhi] Ht1.
  rewrite Zle_Qle in Hlo. rewrite Zlt_Qlt in Hhi.
  change (inject_Z 0) with 0 in Hlo. change (inject_Z 2000) with 2000 in Hhi.
  assert (Hd : t1 - t0 == inject_Z dt * (1 # 1000)) by (rewrite Ht1; field).
  unfold paramValueAt. rewrite fadeIn_events.
  rewrite timelineValue_after_set.
  - rewrite timelineValue_ramp by lra.
    setoid_replace (t0 + 2 - t0) with 2 by ring.
    rewrite Hd. field.
  - eapply Forall_impl; [|apply cancel_keeps_earlier].
    simpl; intros e He. lra.
  - lra.
Qed.

(** The gain along the fade-out that [stop] schedules at [t] from the value
    [value g] it reads. *)
Lemma fade_out_trajectory : forall t g tau,
  0 <= tau <= 1 ->
  paramValueAt (fadeOut t g) (t + tau) == value g * (1 - tau).
Proof.
  intros t g tau [Hlo Hhi]. unfold paramValueAt. rewrite fadeOut_events.
  rewrite timelineValue_after_set.
  - destruct (Qlt_le_dec tau 1) as [Hlt|Hge].
    + rewrite timelineValue_ramp by lra.
      setoid_replace (t + tau - t) with tau by ring.
      setoid_replace (t + 1 - t) with 1 by ring. field.
    + rewrite timelineValue_ramp_done by lra.
      assert (E : tau == 1) by lra. rewrite E. ring.
  - eapply Forall_impl; [|apply cancel_keeps_earlier].
    simpl; intros e He. lra.
  - lra.
Qed.

(** C8.  Not every [stop] during a fade-in fades out from the gain of
    that instant.  Called right after [start], before the audio thread has
    rendered, [stop] reads from [gain.value] the value rendered before the
    [start], 0.5, while the fade-in has the gain at 0: the fade-out starts
    from the nominal volume.  And where a timeout left by an earlier
    [stop] has cleared [isPlaying] during the fade-in, [stop] returns at
    its guard and the fade-in stays scheduled. *)
Lemma stop_during_fade_in_can_miss_the_current_gain :
  (fadeInInFlight (start (newHost 0 44100)) /\
   option_map (scheduledFrom 0) (engineGain (stop (start (newHost 0 44100))))
   = Some [mkEvent SetValue 0.5 0; mkEvent LinearRamp 0 (0 + 1)] /\
   ~ stopFadesFromCurrentGain (start (newHost 0 44100))) /\
  (fadeInInFlight sampleStaleTimeout /\
   isPlaying (engine sampleStaleTimeout) = false /\
   stop sampleStaleTimeout = sampleStaleTimeout /\
   ~ stopFadesFromCurrentGain sampleStaleTimeout).
Proof.
  split.
  - split; [|split].
    + eexists _, (mkEvent LinearRamp 0.5 2). split; [reflexivity|].
      split; [left; reflexivity | reflexivity].
    + reflexivity.
    + intros (g & g2 & v & Hg & Hg2 & Hv & Hsched).
      vm_compute in Hg. injection Hg as <-.
      vm_compute in Hg2. injection Hg2 as <-.
      vm_compute in Hsched. injection Hsched as Hsched.
      rewrite <- Hsched in Hv. vm_compute in Hv. discriminate.
  - split; [|split; [|split]].
    + eexists _, (mkEvent LinearRamp 0.5 5.1). split; [reflexivity|].
      split; [left; reflexivity | reflexivity].
    + reflexivity.
    + reflexivity.
    + intros (g & g2 & v & _ & Hg2 & _ & Hsched).
      vm_compute in Hg2. injection Hg2 as <-.
      vm_compute in Hsched. discriminate.
Qed.

(** C8, as the code has it.  [start] on an idle engine, then [stop] after
    [dt] ms with the fade-in still running ([0 < dt < 2000], so the gain
    has been rendered since the [start]) and the engine still playing, so
    that [stop] passes its guard:
    the gain has reached [dt / 4000], strictly between 0 and the nominal
    0.5; [stop] leaves, from that instant on, only a set to that partial
    value followed by a ramp to 0 one second later (the fade-in ramp is
    gone), and along the fade-out the gain is [partial * (1 - tau)], which
    at [tau = 0] is the value just before the call: no jump. *)
Theorem stop_during_fade_in_starts_from_partial_gain : forall h dt,
  isPlaying (engine h) = false ->
  (0 < dt < 2000)%Z ->
  isPlaying (engine (advance dt (start h))) = true ->
  let h1 := advance dt (start h) in
  let t := audioTime h1 in
  fadeInInFlight h1 /\
  stopFadesFromCurrentGain h1 /\
  exists g1 g2,
    engineGain h1 = Some g1 /\
    engineGain (stop h1) = Some g2 /\
    value g1 == inject_Z dt / 4000 /\
    0 < value g1 < 0.5 /\
    scheduledFrom t g2
    = [mkEvent SetValue (value g1) t; mkEvent LinearRamp 0 (t + 1)] /\
    pendingRamps t g2 = [mkEvent LinearRamp 0 (t + 1)] /\
    (forall tau, 0 <= tau <= 1 ->
                 paramValueAt g2 (t + tau) == value g1 * (1 - tau)).
Proof.
  intros h dt Hidle Hdt Hplay h1 t.
  set (c := contextForStart h).
  set (t0 := currentTime c).
  set (t1 := Qred (t0 + inject_Z dt / 1000)).
  set (g1 := renderParam t1 (fadeIn t0 (gain c))).
  assert (Hctx : ctx (engine h1) = Some (mkContext t1 (sampleRate c) g1)).
  { unfold h1. rewrite advance_ctx, (start_when_idle h Hidle). reflexivity. }
  assert (Hsrc : source (engine h1) <> None).
  { unfold h1. apply advance_source. rewrite (start_when_idle h Hidle).
    discriminate. }
  destruct (source (engine h1)) as [src|] eqn:Es; [|contradiction].
  assert (Ht : t = t1) by (unfold t, audioTime; now rewrite Hctx).
  assert (Ht1 : t1 == t0 + inject_Z dt / 1000) by apply Qred_correct.
  assert (Hv : value g1 == inject_Z dt / 4000).
  { unfold g1, renderParam. cbn [value]. rewrite Qred_correct.
    apply fade_in_partial_gain; [lia | exact Ht1]. }
  assert (Hrange : 0 < inject_Z dt /\ inject_Z dt < 2000).
  { destruct Hdt as [Hlo Hhi]. rewrite Zlt_Qlt in Hlo, Hhi. now split. }
  assert (Hev : events g1
                = events (cancelScheduledValues t0 (gain c))
                  ++ [mkEvent SetValue 0 t0; mkEvent LinearRamp 0.5 (t0 + 2)])
    by apply fadeIn_events.
  assert (Hcur : value g1 == paramValueAt g1 t1).
  { rewrite Hv. symmetry. unfold paramValueAt. rewrite Hev.
    destruct Hrange as [Hlo Hhi].
    assert (Hd : t1 - t0 == inject_Z dt * (1 # 1000)) by (rewrite Ht1; field).
    rewrite timelineValue_after_set.
    - rewrite timelineValue_ramp by lra.
      setoid_replace (t0 + 2 - t0) with 2 by ring.
      rewrite Hd. field.
    - eapply Forall_impl; [|apply cancel_keeps_earlier].
      simpl; intros e He. lra.
    - lra. }
  assert (Hsched : scheduledFrom t1 (fadeOut t1 g1)
                   = [mkEvent SetValue (value g1) t1;
                      mkEvent LinearRamp 0 (t1 + 1)]).
  { eapply scheduledFrom_envelope;
      [ | apply cancel_keeps_earlier | apply fadeOut_events]. lra. }
  assert (Hstop : engineGain (stop h1) = Some (fadeOut t1 g1)).
  { rewrite (stop_when_playing h1 Hplay Es Hctx). reflexivity. }
  assert (Hgain : engineGain h1 = Some g1)
    by (unfold engineGain; now rewrite Hctx).
  split.
  { exists g1, (mkEvent LinearRamp 0.5 (t0 + 2)).
    split; [exact Hgain|]. split; [|reflexivity].
    fold t. rewrite Ht. unfold pendingRamps. apply filter_In. split.
    - rewrite Hev. apply in_or_app. right. right. left. reflexivity.
    - cbn [isRamp ev_kind ev_time andb]. apply negb_true_iff.
      apply Qle_bool_false. destruct Hrange as [Hlo Hhi].
      unfold Qdiv in Ht1. change (/ 1000) with (1 # 1000) in Ht1. lra. }
  split.
  { exists g1, (fadeOut t1 g1), (value g1). fold t. rewrite Ht.
    split; [exact Hgain|]. split; [exact Hstop|].
    split; [exact Hcur | exact Hsched]. }
  exists g1, (fadeOut t1 g1). rewrite Ht.
  split; [exact Hgain|].
  split; [exact Hstop|].
  split; [exact Hv|].
  split.
  { rewrite Hv. unfold Qdiv. change (/ 4000) with (1 # 4000).
    destruct Hrange. split; lra. }
  split; [exact Hsched|].
  split.
  { eapply pendingRamps_envelope;
      [ | apply cancel_keeps_earlier | apply fadeOut_events]. lra. }
  intros tau Htau. now apply fade_out_trajectory.
Qed.

Lemma stop_during_fade_in_starts_from_partial_gain_witness :
  isPlaying (engine (newHost 0 44100)) = false /\
  (0 < 500 < 2000)%Z /\
  isPlaying (engine (advance 500 (start (newHost 0 44100)))) = true /\
  stopFadesFromCurrentGain (advance 500 (start (newHost 0 44100))) /\
  exists g1 g2,
    engineGain (advance 500 (start (newHost 0 44100))) = Some g1 /\
    engineGain (stop (advance 500 (start (newHost 0 44100)))) = Some g2 /\
    value g1 == inject_Z 500 / 4000 /\
    pendingRamps (1 # 2) g2 = [mkEvent LinearRamp 0 ((1 # 2) + 1)].
Proof.
  split; [reflexivity|]. split; [lia|]. split; [reflexivity|].
  destruct (@stop_during_fade_in_starts_from_partial_gain
              (newHost 0 44100) 500 eq_refl ltac:(lia) eq_refl)
    as (_ & Hspec & g1 & g2 & H1 & H2 & H3 & _ & _ & H6 & _).
  split; [exact Hspec|].
  exists g1, g2.
  split; [exact H1|]. split; [exact H2|]. split; [exact H3 | exact H6].
Defined.

End EnvelopeClaims.

(* ================================================================== *)
(** * 11. The fade-out window                                          *)
(* ================================================================== *)

Section FadeOutWindow.

Lemma opsDuration_nonneg : forall ops,
  Forall validOp ops -> 0 <= opsDuration ops.
Proof.
  induction 1 as [|o ops Ho _ IH]; simpl; [lia|].
  destruct o; simpl in *; lia.
Qed.

Lemma fadingOut_stop_begins : forall h,
  stopTakesEffect h ->
  Forall (fun d => clock h + 1000 <= d) (timers h) ->
  fadingOutUntil (clock h + 1000) (stop h).
Proof.
  intros h (Hp & Hs & Hc) Ht.
  destruct (source (engine h)) as [src|] eqn:Es; [|contradiction].
  destruct (ctx (engine h)) as [c|] eqn:Ec; [|contradiction].
  rewrite (stop_when_playing h Hp Es Ec). unfold fadingOutUntil. cbn.
  repeat split; try discriminate; try lia.
  apply Forall_app. split; [exact Ht|]. repeat constructor. lia.
Qed.

(** One second after a [stop] that passed its guard, its timeout has run. *)
Lemma stop_timeout_fires : forall h,
  stopTakesEffect h ->
  isPlaying (engine (advance 1000 (stop h))) = false.
Proof.
  intros h (Hp & Hsrc & Hc).
  destruct (source (engine h)) as [src|] eqn:Es; [|contradiction].
  destruct (ctx (engine h)) as [c|] eqn:Ec; [|contradiction].
  rewrite (stop_when_playing h Hp Es Ec). unfold advance.
  cbn [timers clock engine]. rewrite filter_app. cbn [filter].
  rewrite Z.leb_refl. apply timeouts_isPlaying.
  intros E. apply app_eq_nil in E as [_ E]. discriminate.
Qed.

(** Right after a [stop] that passed its guard the guard passes again: a
    further [stop] schedules a further timeout. *)
Lemma stop_again_takes_effect : forall h,
  stopTakesEffect h ->
  stopTakesEffect (stop h) /\
  timers (stop (stop h))
  = timers h ++ [clock h + 1000; clock h + 1000].
Proof.
  intros h (Hp & Hsrc & Hc).
  destruct (source (engine h)) as [src|] eqn:Es; [|contradiction].
  destruct (ctx (engine h)) as [c|] eqn:Ec; [|contradiction].
  rewrite (stop_when_playing h Hp Es Ec). split.
  - repeat split; discriminate.
  - unfold stop. cbn. now rewrite <- app_assoc.
Qed.

Lemma fadingOut_op : forall T o h,
  fadingOutUntil T h -> validOp o ->
  clock h + opsDuration [o] < T ->
  fadingOutUntil T (runOp o h) /\
  clock (runOp o h) = clock h + opsDuration [o].
Proof.
  intros T o h (Hp & Hc & Hclk & Htm) Hv Hbudget.
  destruct o as [ | | |dt]; simpl in *.
  - rewrite (init_with_context h Hc). repeat split; (assumption || lia).
  - rewrite (start_when_playing h Hp Hc). repeat split; (assumption || lia).
  - split; [|unfold stop; destruct (isPlaying (engine h)),
                          (source (engine h)), (ctx (engine h));
              simpl; lia].
    unfold stop. rewrite Hp.
    destruct (source (engine h)) as [src|];
      [|repeat split; (assumption || lia)].
    destruct (ctx (engine h)) as [c|]; [|contradiction].
    unfold fadingOutUntil. cbn.
    repeat split; try discriminate; try lia.
    apply Forall_app. split; [exact Htm|]. repeat constructor. lia.
  - assert (Hdue : filter (fun d => d <=? clock h + dt) (timers h) = []).
    { apply filter_none. eapply Forall_impl; [|exact Htm].
      simpl; intros d Hd. apply Z.leb_gt. lia. }
    unfold fadingOutUntil, advance. cbn. rewrite Hdue. cbn.
    repeat split; try lia.
    + exact Hp.
    + destruct (ctx (engine h)); [discriminate|contradiction].
    + apply Forall_forall. intros d Hd. apply filter_In in Hd as [Hd _].
      rewrite Forall_forall in Htm. now apply Htm.
Qed.

Lemma fadingOut_ops : forall T ops h,
  fadingOutUntil T h -> Forall validOp ops ->
  clock h + opsDuration ops < T ->
  fadingOutUntil T (runOps ops h).
Proof.
  intros T ops. induction ops as [|o ops IH]; intros h Hf Hv Hbudget;
    [exact Hf|].
  inversion Hv as [|? ? Ho Hops]; subst.
  pose proof (opsDuration_nonneg Hops) as Hnn.
  assert (Hone : clock h + opsDuration [o] < T)
    by (destruct o; simpl in *; lia).
  destruct (@fadingOut_op T o h Hf Ho Hone) as [Hf' Hclk].
  unfold runOps; simpl. apply IH; [exact Hf' | exact Hops |].
  rewrite Hclk. destruct o; simpl in *; lia.
Qed.

(** X20.  After a [stop] that passes its guard while no timeout of an
    earlier [stop] is due before its own, whatever calls are made on the
    engine while less than 1000 ms go by, [isPlaying] stays true and
    [start] changes nothing: no context, no source, no fade-in.  Once the
    1000 ms are over the timeout has cleared [isPlaying], and [start]
    starts playback. *)
Theorem start_is_noop_during_fade_out : forall h ops,
  stopTakesEffect h ->
  Forall (fun d => clock h + 1000 <= d) (timers h) ->
  Forall validOp ops ->
  opsDuration ops < 1000 ->
  let h' := runOps ops (stop h) in
  isPlaying (engine h') = true /\
  start h' = h' /\
  isPlaying (engine (advance 1000 (stop h))) = false /\
  start (advance 1000 (stop h)) <> advance 1000 (stop h).
Proof.
  intros h ops Hs Ht Hv Hd h'.
  pose proof (fadingOut_stop_begins Hs Ht) as Hf.
  assert (Hclk : clock (stop h) = clock h).
  { destruct Hs as (Hp & Hsrc & Hc).
    destruct (source (engine h)) as [src|] eqn:Es; [|contradiction].
    destruct (ctx (engine h)) as [c|] eqn:Ec; [|contradiction].
    now rewrite (stop_when_playing h Hp Es Ec). }
  assert (Hf' : fadingOutUntil (clock h + 1000) h').
  { apply fadingOut_ops; [exact Hf | exact Hv | rewrite Hclk; lia]. }
  destruct Hf' as (Hp' & Hc' & _ & _).
  split; [exact Hp'|]. split; [now apply start_when_playing|].
  pose proof (stop_timeout_fires Hs) as Hoff.
  split; [exact Hoff|].
  intros E. rewrite (start_when_idle _ Hoff) in E.
  rewrite <- E in Hoff. discriminate.
Qed.

Lemma start_is_noop_during_fade_out_witness :
  stopTakesEffect samplePlaying /\
  Forall (fun d => clock samplePlaying + 1000 <= d) (timers samplePlaying) /\
  Forall validOp [OpWait 400; OpStart; OpStop; OpWait 599; OpStart] /\
  opsDuration [OpWait 400; OpStart; OpStop; OpWait 599; OpStart] < 1000 /\
  start (runOps [OpWait 400; OpStart; OpStop; OpWait 599; OpStart]
                (stop samplePlaying))
  = runOps [OpWait 400; OpStart; OpStop; OpWait 599; OpStart]
           (stop samplePlaying).
Proof.
  assert (Hs : stopTakesEffect samplePlaying)
    by (repeat split; discriminate).
  assert (Hv : Forall validOp [OpWait 400; OpStart; OpStop; OpWait 599; OpStart])
    by (repeat constructor; simpl; lia).
  split; [exact Hs|]. split; [constructor|]. split; [exact Hv|].
  split; [reflexivity|].
  exact (proj1 (proj2 (@start_is_noop_during_fade_out samplePlaying _
                         Hs (Forall_nil _) Hv eq_refl))).
Defined.

(** C10, on a second [stop] half-way.  [start], two seconds of playback,
    [stop], and 500 ms later [stop] again: the second call passes the
    guard, and its fade-out window runs from 2500 to 3500 ms, where its
    timeout is due.  At 3100 ms, inside that window, [isPlaying] is
    already false: the timeout of the first [stop] cleared it at 3000 ms.
    [start] is then not a no-op: it creates a new source from fresh draws,
    sets [isPlaying] and schedules a fade-in, with the timeout of the
    second [stop] still pending. *)
Theorem start_restarts_inside_a_second_fade_out :
  let twice := stop sampleFadingOut in
  let later := sampleSecondFadeOut in
  stopTakesEffect sampleFadingOut /\
  clock twice = 2500 /\
  timers twice = [3000; 3500] /\
  later = advance 600 twice /\
  clock later = 3100 /\
  isPlaying (engine later) = false /\
  timers later = [3500] /\
  start later <> later /\
  isPlaying (engine (start later)) = true /\
  option_map firstDraw (source (engine (start later))) = Some (drawn later) /\
  option_map stopped (source (engine (start later))) = Some false /\
  option_map (scheduledFrom (31 # 10)) (engineGain (start later))
  = Some [mkEvent SetValue 0 (31 # 10); mkEvent LinearRamp 0.5 (51 # 10)] /\
  timers (start later) = [3500].
Proof.
  cbv zeta. split; [repeat split; discriminate|].
  split; [reflexivity|]. split; [reflexivity|]. split; [reflexivity|].
  split; [reflexivity|]. split; [reflexivity|]. split; [reflexivity|].
  split; [vm_compute; discriminate|].
  vm_compute. repeat split.
Qed.

(** C4, on a second call half-way.  A second [stop] 500 ms into the fade-out is not a
    no-op.  Before it, one teardown is pending (at 3000 ms) and the ramp
    ends at audio time 3; after it, two teardowns are pending (3000 and
    3500 ms) and the ramp has been replaced by one that ends at 3.5: the
    fade is restarted from the gain reached (1/4) and lasts longer.  The
    first teardown then stops the source at 3000 ms, when the gain is still
    1/8. *)
Theorem second_stop_restarts_the_fade_out :
  let once := sampleFadingOut in
  let twice := stop once in
  timers once = [3000] /\
  option_map (pendingRamps (5 # 2)) (engineGain once)
  = Some [mkEvent LinearRamp 0 3] /\
  timers twice = [3000; 3500] /\
  option_map (pendingRamps (5 # 2)) (engineGain twice)
  = Some [mkEvent LinearRamp 0 (7 # 2)] /\
  option_map value (engineGain twice) = Some (1 # 4)%Q /\
  isPlaying (engine (advance 500 twice)) = false /\
  option_map value (engineGain (advance 500 twice)) = Some (1 # 8)%Q /\
  timers (advance 500 twice) = [3500].
Proof. vm_compute. repeat split. Qed.

End FadeOutWindow.

(* ================================================================== *)
(** * 12. Phase and timer of [SessionView]                             *)
(* ================================================================== *)

Section SessionClaims.

(** C5.  The specification's last threshold has no counterpart: at
    1200 s the code's phase is still ['return']. *)
Lemma phase_at_total_is_return_not_completed :
  phaseAsSpec (phase 1200) <> specPhase exampleConfig 1200.
Proof. vm_compute. discriminate. Qed.

(** C5, as the code has it.  The phase is a function of [elapsed] alone, by two
    thresholds, the lower bound inclusive and the upper exclusive: below
    120 s it is ['entry'], from 120 s and below 1080 s ['immersion'], from
    1080 s on ['return'], also at and beyond the total of 1200 s (there is
    no completed phase).  Below the total it agrees with the
    specification's thresholds for {total 1200, entry end 120, immersion
    end 1080}. *)
Theorem phase_by_two_thresholds : forall e,
  (phase e = phase_entry <-> e < 120) /\
  (phase e = phase_immersion <-> 120 <= e < 1080) /\
  (phase e = phase_return <-> 1080 <= e) /\
  (e < 1200 -> phaseAsSpec (phase e) = specPhase exampleConfig e) /\
  phase 119 = phase_entry /\
  phase 120 = phase_immersion /\
  phase 1199 = phase_return /\
  phase 1200 = phase_return.
Proof.
  intros e. unfold phase, specPhase, exampleConfig, PHASE_1_END, PHASE_2_END.
  cbn [entryEndSeconds immersionEndSeconds totalDurationSeconds].
  change (2 * 60) with 120. change (18 * 60) with 1080.
  destruct (e <? 120) eqn:E1; destruct (e <? 1080) eqn:E2;
    destruct (e <? 1200) eqn:E3;
    try apply Z.ltb_lt in E1; try apply Z.ltb_ge in E1;
    try apply Z.ltb_lt in E2; try apply Z.ltb_ge in E2;
    try apply Z.ltb_lt in E3; try apply Z.ltb_ge in E3;
    repeat split; intros; try reflexivity; try discriminate; try lia.
Qed.

(** ** The timer counts callbacks *)

Lemma wait_keeps_session : forall dt w w',
  step (Wait dt) w = Some w' -> sessionView w' = sessionView w.
Proof.
  intros dt w w' H. unfold step in H.
  assert (E : (if 0 <=? dt then Some (setHost (advance dt (host w)) w)
               else None) = Some w')
    by (destruct (view w), (sessionView w); exact H).
  destruct (0 <=? dt); [|discriminate]. injection E as <-. reflexivity.
Qed.

Lemma tick_adds_one : forall w w' s,
  sessionView w = Some s ->
  elapsed s + 1 < TOTAL_TIME ->
  step Tick w = Some w' ->
  exists s', sessionView w' = Some s' /\ elapsed s' = elapsed s + 1.
Proof.
  intros w w' s Hs Hlt H.
  destruct w as [h v hist hc ls sv cl]. cbn in Hs. subst sv.
  destruct s as [e a au iv]. cbn [elapsed] in Hlt.
  assert (Hge : (TOTAL_TIME <=? e + 1) = false) by (now apply Z.leb_gt).
  apply Z.ltb_lt in Hlt.
  unfold step in H. cbn in H.
  destruct v; try discriminate.
  destruct iv as [due|]; [|discriminate].
  destruct (due <=? clock h); [|discriminate].
  injection H as <-.
  unfold timerEffect. cbn [elapsed isActive]. rewrite Hlt, Hge.
  destruct a, hc; cbn; eexists; split; reflexivity.
Qed.

(** While a session runs, [elapsed] is the number of interval callbacks
    delivered, whatever time went by in between. *)
Lemma elapsed_counts_ticks : forall evs w w' s,
  Forall timePassing evs ->
  sessionView w = Some s ->
  elapsed s + countTicks evs < TOTAL_TIME ->
  run evs w = Some w' ->
  exists s', sessionView w' = Some s' /\
             elapsed s' = elapsed s + countTicks evs.
Proof.
  induction evs as [|ev evs IH]; intros w w' s Hev Hs Hlt Hrun.
  - injection Hrun as <-. exists s. split; [exact Hs|]. unfold countTicks.
    simpl. lia.
  - inversion Hev as [|? ? Hhd Htl]; subst.
    assert (Hnn : 0 <= countTicks evs) by (unfold countTicks; lia).
    cbn [run] in Hrun. destruct (step ev w) as [w1|] eqn:Hstep;
      [|discriminate].
    destruct ev; try contradiction.
    + assert (Hc : countTicks (Tick :: evs) = 1 + countTicks evs)
        by (unfold countTicks; cbn [filter List.length]; lia).
      rewrite Hc in *.
      destruct (@tick_adds_one w w1 s Hs ltac:(lia) Hstep)
        as (s1 & Hs1 & He1).
      destruct (IH w1 w' s1 Htl Hs1 ltac:(lia) Hrun) as (s' & Hs' & He').
      exists s'. split; [exact Hs'|]. lia.
    + assert (Hc : countTicks (Wait dt :: evs) = countTicks evs)
        by reflexivity.
      rewrite Hc in *.
      pose proof (wait_keeps_session _ _ Hstep) as Hs1. rewrite Hs in Hs1.
      exact (IH w1 w' s Htl Hs1 Hlt Hrun).
Qed.

(** C1, on the backgrounding scenario.  A session is started and the page
    is left for 300 s during which no interval callback is delivered; then
    one callback runs.  By the wall clock 300 s have elapsed; the timer
    shows 1. *)
Theorem one_tick_after_five_minutes_shows_one_second :
  let started := sampleSession in
  let resumed := afterRun [Wait 300000; Tick] started in
  run [Wait 300000; Tick] started = Some resumed /\
  wallClockElapsed (clock (host started)) (clock (host resumed)) = 300 /\
  option_map elapsed (sessionView resumed) = Some 1.
Proof. vm_compute. repeat split. Qed.

End SessionClaims.

(* ================================================================== *)
(** * 13. Completion, early exit and the history store                 *)
(* ================================================================== *)

Section HistoryClaims.

(** ** What is stored reads back *)

Lemma recordOfJSON_recordToJSON : forall r,
  recordOfJSON (recordToJSON r) = Some r.
Proof. intros [i d n c]. reflexivity. Qed.

Lemma recordsOfJSON_map : forall h,
  recordsOfJSON (map recordToJSON h) = Some h.
Proof.
  induction h as [|r h IH]; [reflexivity|].
  cbn [map recordsOfJSON]. now rewrite recordOfJSON_recordToJSON, IH.
Qed.

Lemma loadHistory_stringifyHistory : forall h,
  loadHistory (Some (stringifyHistory h)) = Some h.
Proof.
  intros h. unfold loadHistory, stringifyHistory. now rewrite recordsOfJSON_map.
Qed.

Lemma restart_history : forall w,
  option_map history (restart w) = loadHistory (localStorage w).
Proof.
  intros w. unfold restart, boot. now destruct (loadHistory (localStorage w)).
Qed.

Lemma restart_what_was_written : forall w,
  localStorage w = Some (stringifyHistory (history w)) ->
  restart w
  = Some (firstRender (clock (host w)) (deviceRate (host w)) (history w)
                      (localStorage w)).
Proof.
  intros w H. unfold restart, boot.
  now rewrite H, loadHistory_stringifyHistory.
Qed.

(** ** Completion *)

(** C6.  With one second to go, the completing tick calls [stop] twice,
    not once: the specification's completion does not hold of it. *)
Lemma completing_tick_does_not_stop_once :
  ~ completesWithOneStop sampleLastSecond.
Proof.
  intros (w' & r & Hstep & _ & _ & _ & Hcount).
  vm_compute in Hstep. injection Hstep as <-.
  vm_compute in Hcount. discriminate.
Qed.

(** C6, as the code has it.  A tick of a mounted session whose [elapsed] is below the
    total either leaves [elapsed] below the total, and then changes
    neither the history nor the engine, or brings it to the total, and then
    completes the session, once: [audioEngine.stop()] is invoked twice (by
    [handleComplete], then by the audio effect's cleanup as the view
    unmounts), exactly one record is appended, with [completed = true] and
    [duration] the total of 1200 s, the history is written to the store,
    and the view is gone, so that no further tick can run. *)
Theorem completion_emits_one_record_and_stops_twice : forall w s due,
  view w = view_session ->
  sessionView w = Some s ->
  historyChanged w = false ->
  interval s = Some due ->
  due <= clock (host w) ->
  elapsed s + 1 <= TOTAL_TIME ->
  exists w',
    step Tick w = Some w' /\
    ((elapsed s + 1 < TOTAL_TIME /\
      view w' = view_session /\
      option_map elapsed (sessionView w') = Some (elapsed s + 1) /\
      history w' = history w /\
      calls w' = calls w /\
      host w' = host w)
     \/
     (elapsed s + 1 = TOTAL_TIME /\
      view w' = view_home /\
      sessionView w' = None /\
      history w'
      = history w ++ [completedRecord (clock (host w)) TOTAL_TIME] /\
      TOTAL_TIME = 1200 /\
      localStorage w' = Some (stringifyHistory (history w')) /\
      calls w' = calls w ++ [CallStop; CallStop] /\
      host w' = stop (stop (host w)) /\
      step Tick w' = None)).
Proof.
  intros w s due Hv Hs Hc Hi Hdue Hle.
  destruct w as [h v hist hc ls sv cl]. cbn in Hv, Hs, Hc, Hdue. subst.
  destruct s as [e a au iv]. cbn [elapsed interval] in *. subst iv.
  unfold step. cbn [view sessionView interval host].
  apply Z.leb_le in Hdue. rewrite Hdue.
  eexists. split; [reflexivity|].
  unfold timerEffect. cbn [elapsed isActive].
  destruct (Z.eq_dec (e + 1) TOTAL_TIME) as [Heq|Hne].
  - right. rewrite Heq. rewrite Z.ltb_irrefl, andb_false_r, Z.leb_refl.
    unfold completedRecord.
    cbn -[stop toISOString nowToString stringifyHistory TOTAL_TIME].
    rewrite stop_clock, <- app_assoc.
    repeat split; try assumption; reflexivity.
  - left. assert (Hlt : e + 1 < TOTAL_TIME) by lia.
    assert (Hge : (TOTAL_TIME <=? e + 1) = false) by (now apply Z.leb_gt).
    apply Z.ltb_lt in Hlt. rewrite Hlt, Hge.
    destruct a; cbn; repeat split; try reflexivity; now apply Z.ltb_lt.
Qed.

Lemma completion_emits_one_record_and_stops_twice_witness :
  view sampleLastSecond = view_session /\
  option_map elapsed (sessionView sampleLastSecond) = Some 1199 /\
  exists w',
    step Tick sampleLastSecond = Some w' /\
    history w' = [completedRecord 1700001200000 1200] /\
    calls w' = [CallInit; CallStart; CallStop; CallStop].
Proof.
  split; [vm_compute; reflexivity|]. split; [vm_compute; reflexivity|].
  assert (H1 : view sampleLastSecond = view_session)
    by (vm_compute; reflexivity).
  assert (H2 : sessionView sampleLastSecond
               = Some (mkSession 1199 true true (Some 1700001200000)))
    by (vm_compute; reflexivity).
  assert (H3 : historyChanged sampleLastSecond = false)
    by (vm_compute; reflexivity).
  assert (H5 : 1700001200000 <= clock (host sampleLastSecond))
    by (vm_compute; discriminate).
  assert (H6 : 1199 + 1 <= TOTAL_TIME) by (vm_compute; discriminate).
  destruct (@completion_emits_one_record_and_stops_twice
              sampleLastSecond _ 1700001200000 H1 H2 H3 eq_refl H5 H6)
    as (w' & Hstep & [(Hlt & _) | (_ & _ & _ & Hh & _ & _ & Hcalls & _)]).
  - vm_compute in Hlt. discriminate.
  - exists w'. split; [exact Hstep|]. split.
    + rewrite Hh. vm_compute. reflexivity.
    + rewrite Hcalls. vm_compute. reflexivity.
Defined.

(** ** Early exit *)

(** C2, on the exit path.  Confirming the exit dialog of a running session
    returns to the dashboard and unmounts the view, whose cleanup calls
    [audioEngine.stop()] once; nothing is appended to the history and
    nothing is written to the store: the aborted session leaves no
    record. *)
Theorem early_exit_records_nothing : forall w s,
  view w = view_session ->
  sessionView w = Some s ->
  historyChanged w = false ->
  exists w',
    step (ClickExit true) w = Some w' /\
    view w' = view_home /\
    sessionView w' = None /\
    history w' = history w /\
    localStorage w' = localStorage w /\
    calls w' = calls w ++ [CallStop] /\
    host w' = stop (host w).
Proof.
  intros w s Hv Hs Hc.
  destruct w as [h v hist hc ls sv cl]. cbn in Hv, Hs, Hc. subst.
  eexists. split; [reflexivity|]. cbn. repeat split.
Qed.

Lemma early_exit_records_nothing_witness :
  view (afterRun (seconds 7) sampleSession) = view_session /\
  option_map elapsed (sessionView (afterRun (seconds 7) sampleSession))
  = Some 7 /\
  historyChanged (afterRun (seconds 7) sampleSession) = false /\
  exists w',
    step (ClickExit true) (afterRun (seconds 7) sampleSession) = Some w' /\
    history w' = [] /\
    localStorage w' = Some (JArray []).
Proof.
  split; [vm_compute; reflexivity|]. split; [vm_compute; reflexivity|].
  split; [vm_compute; reflexivity|].
  assert (H1 : view (afterRun (seconds 7) sampleSession) = view_session)
    by (vm_compute; reflexivity).
  assert (H2 : sessionView (afterRun (seconds 7) sampleSession)
               = Some (mkSession 7 true true (Some 1700000008000)))
    by (vm_compute; reflexivity).
  assert (H3 : historyChanged (afterRun (seconds 7) sampleSession) = false)
    by (vm_compute; reflexivity).
  destruct (early_exit_records_nothing _ H1 H2 H3)
    as (w' & Hstep & _ & _ & Hh & Hl & _).
  exists w'. split; [exact Hstep|]. split.
  - rewrite Hh. vm_compute. reflexivity.
  - rewrite Hl. vm_compute. reflexivity.
Defined.

(** ** Append and restart *)

(** C3.  When [handleSessionComplete] returns nothing has been written
    yet: a restart at that point reloads the store without the record. *)
Lemma append_is_not_durable_on_return :
  ~ appendIsDurable 1200 sampleLastSecond.
Proof.
  intros (reloaded & r & Hre & Hin & _).
  vm_compute in Hre. injection Hre as <-. exact Hin.
Qed.

(** C3, as the code has it.  [handleSessionComplete] appends the record to the
    in-memory history and returns with the store untouched; the write
    happens in the persistence effect of the commit that follows.  Once
    that effect has run, a restart reloads the same history with the same
    record last ([id], [date], [duration], [completed = true]).  A record
    has these four fields and no [syncState]. *)
Theorem record_survives_restart_once_persisted : forall w seconds,
  let r := completedRecord (clock (host w)) seconds in
  let w1 := handleSessionComplete seconds w in
  let w2 := persistHistory w1 in
  history w1 = history w ++ [r] /\
  localStorage w1 = localStorage w /\
  localStorage w2 = Some (stringifyHistory (history w ++ [r])) /\
  option_map history (restart w2) = Some (history w ++ [r]) /\
  option_map localStorage (restart w2) = Some (localStorage w2) /\
  map fst (recordFields r) = ["id"; "date"; "duration"; "completed"] /\
  getField "syncState" (recordFields r) = None.
Proof.
  intros w seconds r w1 w2.
  assert (H2 : localStorage w2
               = Some (stringifyHistory (history w ++ [r]))) by reflexivity.
  assert (Hr : option_map history (restart w2) = Some (history w ++ [r])).
  { rewrite restart_history, H2. apply loadHistory_stringifyHistory. }
  repeat split; try reflexivity; try assumption.
  unfold restart, boot. rewrite H2, loadHistory_stringifyHistory. reflexivity.
Qed.

End HistoryClaims.

(* ================================================================== *)
(** * 14. More on the engine                                           *)
(* ================================================================== *)

Section EngineExtras.
Local Open Scope Q_scope.

(** ** Calls that absorb one another *)

Lemma init_has_context : forall h, ctx (engine (init h)) <> None.
Proof.
  intros h. unfold init.
  destruct (ctx (engine h)) eqn:E; [now rewrite E | discriminate].
Qed.

Lemma init_isPlaying : forall h,
  isPlaying (engine (init h)) = isPlaying (engine h).
Proof. intros h. unfold init. now destruct (ctx (engine h)). Qed.

(** Whatever the state, after [start] the engine is flagged as playing on
    a context. *)
Lemma start_result_playing : forall h,
  isPlaying (engine (start h)) = true /\ ctx (engine (start h)) <> None.
Proof.
  intros h. destruct (isPlaying (engine h)) eqn:Hp.
  - unfold start. destruct (ctx (engine h)) as [c|] eqn:Ec.
    + rewrite Hp. rewrite Hp, Ec. split; [reflexivity | discriminate].
    + rewrite init_isPlaying, Hp. rewrite init_isPlaying, Hp.
      split; [reflexivity | apply init_has_context].
  - rewrite (start_when_idle h Hp). split; [reflexivity | discriminate].
Qed.

(** X1.  [init] is idempotent; [start] makes the [init] call itself when it
    is needed, so an [init] just before it ([Dashboard.handleStart]) changes
    nothing of its outcome; and a second [start] in a row changes nothing:
    one source, one buffer of random draws, one fade-in. *)
Theorem engine_calls_absorb : forall h,
  init (init h) = init h /\
  start (init h) = start h /\
  start (start h) = start h.
Proof.
  intros h. pose proof (init_has_context h) as Hi.
  split; [apply init_with_context; exact Hi|]. split.
  - destruct (ctx (engine h)) as [c|] eqn:Ec.
    + rewrite (@init_with_context h) by (rewrite Ec; discriminate).
      reflexivity.
    + assert (M : match ctx (engine (init h)) with
                  | Some _ => init h
                  | None => init (init h)
                  end = init h)
        by (destruct (ctx (engine (init h))); [reflexivity | contradiction]).
      unfold start. rewrite Ec, M. reflexivity.
  - destruct (start_result_playing h) as [Hp Hc].
    now apply start_when_playing.
Qed.

(** ** The flag and the source *)

Lemma flag_after_timeouts : forall (due : list Z) e,
  flagMatchesEngine e ->
  flagMatchesEngine (fold_left (fun e _ => onFadeOutTimeout e) due e).
Proof.
  induction due as [|d due IH]; intros e He; [exact He|].
  simpl. apply IH. unfold flagMatchesEngine, onFadeOutTimeout in *. simpl.
  destruct (source e) as [s|]; simpl; [|reflexivity].
  destruct He as (_ & _ & Hl & Hc). repeat split; assumption.
Qed.

Lemma flag_after_render : forall dt e,
  flagMatchesEngine e -> flagMatchesEngine (renderAudio dt e).
Proof.
  intros dt e He. unfold flagMatchesEngine, renderAudio in *. simpl.
  destruct (source e) as [s|]; [|exact He].
  destruct He as (H1 & H2 & H3 & H4). repeat split; try assumption.
  destruct (ctx e); [discriminate | contradiction].
Qed.

Lemma flag_after_op : forall o h,
  flagMatchesSource h -> flagMatchesSource (runOp o h).
Proof.
  intros o h H. destruct o as [ | | |dt]; simpl.
  - destruct (ctx (engine h)) as [c|] eqn:Ec.
    + rewrite (@init_with_context h) by (rewrite Ec; discriminate). exact H.
    + unfold flagMatchesSource, flagMatchesEngine, init in *.
      rewrite Ec in *. simpl.
      destruct (source (engine h)); [|exact H].
      destruct H as (H1 & H2 & H3 & H4). contradiction.
  - destruct (isPlaying (engine h)) eqn:Hp.
    + assert (Hc : ctx (engine h) <> None).
      { unfold flagMatchesSource, flagMatchesEngine in H.
        destruct (source (engine h)); [tauto | congruence]. }
      now rewrite (start_when_playing h Hp Hc).
    + rewrite (start_when_idle h Hp).
      unfold flagMatchesSource, flagMatchesEngine. simpl.
      repeat split. discriminate.
  - unfold stop. destruct (isPlaying (engine h)) eqn:Hp; [|exact H].
    destruct (source (engine h)) as [src|] eqn:Es; [|exact H].
    destruct (ctx (engine h)) as [c|] eqn:Ec; [|exact H].
    unfold flagMatchesSource, flagMatchesEngine in *. simpl.
    rewrite Es, Hp in H. destruct H as (H1 & H2 & H3 & _).
    repeat split; try assumption. discriminate.
  - unfold flagMatchesSource, advance. cbn [engine].
    apply flag_after_timeouts, flag_after_render. exact H.
Qed.

Lemma reachable_flag : forall h, reachable h -> flagMatchesSource h.
Proof.
  induction 1 as [now rate | h o Hr IH Hv]; [reflexivity|].
  now apply flag_after_op.
Qed.

Lemma playing_takes_effect : forall h,
  flagMatchesSource h -> isPlaying (engine h) = true -> stopTakesEffect h.
Proof.
  intros h H Hp. unfold flagMatchesSource, flagMatchesEngine in H.
  unfold stopTakesEffect.
  destruct (source (engine h)) as [s|] eqn:Es.
  - destruct H as (_ & _ & _ & Hc). repeat split; try assumption.
    discriminate.
  - congruence.
Qed.

(** X2.  In every state the engine can reach the flag tells the truth
    about the source: while [isPlaying] is set there is a context and a
    looping source that is connected and not stopped, so the guard of
    [stop] comes down to the flag; while it is clear there is no source, or
    the last one is stopped and disconnected.  A source is never replaced
    while it still sounds. *)
Theorem flag_matches_source : forall h,
  reachable h ->
  flagMatchesSource h /\
  (isPlaying (engine h) = true -> stopTakesEffect h) /\
  (isPlaying (engine h) = false -> stop h = h).
Proof.
  intros h Hr. pose proof (reachable_flag Hr) as H.
  split; [exact H|]. split.
  - now apply playing_takes_effect.
  - apply stop_when_idle.
Qed.

Lemma flag_matches_source_witness :
  reachable sampleFadingOut /\
  flagMatchesSource sampleFadingOut /\
  stopTakesEffect sampleFadingOut.
Proof.
  assert (Hr : reachable sampleFadingOut).
  { apply reachable_runOps; [|apply reach_new].
    repeat constructor; simpl; lia. }
  split; [exact Hr|].
  destruct (flag_matches_source Hr) as (H1 & H2 & _).
  split; [exact H1 | exact (H2 eq_refl)].
Defined.

(** ** Timeouts *)

Lemma timers_within_second_op : forall o h,
  validOp o -> timersWithinSecond h -> timersWithinSecond (runOp o h).
Proof.
  intros o h Hv H. unfold timersWithinSecond in *.
  destruct o as [ | | |dt]; simpl in *.
  - unfold init. now destruct (ctx (engine h)).
  - unfold start. destruct (ctx (engine h)) as [c|] eqn:Ec.
    + destruct (isPlaying (engine h)); [exact H|]. rewrite Ec. exact H.
    + unfold init. rewrite Ec. cbn.
      destruct (isPlaying (engine h)); exact H.
  - unfold stop. destruct (isPlaying (engine h)); [|exact H].
    destruct (source (engine h)); [|exact H].
    destruct (ctx (engine h)); [|exact H]. cbn.
    apply Forall_app. split; [exact H|]. repeat constructor. lia.
  - unfold advance. cbn. apply Forall_forall. intros d Hd.
    apply filter_In in Hd as [Hd _]. rewrite Forall_forall in H.
    specialize (H d Hd). lia.
Qed.

Lemma reachable_timers_within_second : forall h,
  reachable h -> timersWithinSecond h.
Proof.
  induction 1 as [now rate | h o Hr IH Hv]; [constructor|].
  now apply timers_within_second_op.
Qed.

Lemma timeouts_run_within_second : forall h dt,
  timersWithinSecond h ->
  (1000 <= dt)%Z ->
  timers (advance dt h) = [] /\
  (timers h <> [] -> isPlaying (engine (advance dt h)) = false).
Proof.
  intros h dt Hw Hdt. unfold timersWithinSecond in Hw.
  assert (Hall : Forall (fun d => (d <=? clock h + dt)%Z = true) (timers h)).
  { eapply Forall_impl; [|exact Hw]. simpl; intros d Hd.
    apply Z.leb_le. lia. }
  unfold advance. cbn [timers engine]. split.
  - apply filter_none. eapply Forall_impl; [|exact Hall].
    simpl; intros d Hd. now rewrite Hd.
  - intros Hne. rewrite (filter_all _ Hall). now apply timeouts_isPlaying.
Qed.

(** X3.  The engine cannot stay stuck between playing and stopped: in
    every reachable state each pending timeout comes due within a second,
    so once a second goes by without a further call no timeout is pending
    any more, and if one was pending the flag is clear. *)
Theorem engine_settles_within_a_second : forall h dt,
  reachable h ->
  (1000 <= dt)%Z ->
  timers (advance dt h) = [] /\
  (timers h <> [] -> isPlaying (engine (advance dt h)) = false).
Proof.
  intros h dt Hr Hdt. apply timeouts_run_within_second; [|exact Hdt].
  now apply reachable_timers_within_second.
Qed.

Lemma engine_settles_within_a_second_witness :
  reachable sampleFadingOut /\
  (1000 <= 1000)%Z /\
  timers sampleFadingOut <> [] /\
  timers (advance 1000 sampleFadingOut) = [] /\
  isPlaying (engine (advance 1000 sampleFadingOut)) = false.
Proof.
  assert (Hr : reachable sampleFadingOut).
  { apply reachable_runOps; [|apply reach_new].
    repeat constructor; simpl; lia. }
  assert (Hne : timers sampleFadingOut <> []) by discriminate.
  split; [exact Hr|]. split; [lia|]. split; [exact Hne|].
  destruct (@engine_settles_within_a_second sampleFadingOut 1000 Hr
              ltac:(lia)) as [H1 H2].
  split; [exact H1 | exact (H2 Hne)].
Defined.

(** ** The gain stays in range *)

Lemma ramp_between : forall v0 v1 t0 te t,
  volumeRange v0 -> volumeRange v1 -> t0 <= t -> t < te ->
  volumeRange (v0 + (v1 - v0) * ((t - t0) / (te - t0))).
Proof.
  unfold volumeRange. intros v0 v1 t0 te t H0 H1 Ht0 Hte.
  assert (Hf0 : 0 <= (t - t0) / (te - t0))
    by (apply Qle_shift_div_l; lra).
  assert (Hf1 : (t - t0) / (te - t0) <= 1)
    by (apply Qle_shift_div_r; lra).
  set (f := (t - t0) / (te - t0)) in *. nra.
Qed.

Lemma timelineValue_in_range : forall evs v0 t0 t,
  volumeRange v0 ->
  Forall (fun e => volumeRange (ev_value e)) evs ->
  t0 <= t ->
  volumeRange (timelineValue v0 t0 evs t).
Proof.
  induction evs as [|e evs IH]; intros v0 t0 t Hv He Ht; [exact Hv|].
  inversion He; subst. simpl.
  destruct (Qle_bool (ev_time e) t) eqn:E.
  - apply IH; try assumption. now apply Qle_bool_iff.
  - apply Qle_bool_false in E. destruct (ev_kind e); [exact Hv|].
    now apply ramp_between.
Qed.

Lemma cancel_in_range : forall t g,
  Forall (fun e => volumeRange (ev_value e)) (events g) ->
  Forall (fun e => volumeRange (ev_value e))
         (events (cancelScheduledValues t g)).
Proof.
  intros t g H. unfold cancelScheduledValues. cbn [events].
  apply Forall_forall. intros e He. apply filter_In in He as [He _].
  rewrite Forall_forall in H. now apply H.
Qed.

Lemma gainInRange_op : forall o h,
  validOp o -> gainInRange h -> gainInRange (runOp o h).
Proof.
  intros o h Hv H. destruct o as [ | | |dt]; simpl in *.
  - unfold gainInRange, init in *.
    destruct (ctx (engine h)) as [c|] eqn:Ec; [now rewrite Ec|]. cbn.
    unfold volumeRange. repeat split; try lra.
    repeat constructor; simpl; lra.
  - destruct (isPlaying (engine h)) eqn:Hp.
    + unfold start. destruct (ctx (engine h)) as [c|] eqn:Ec.
      * now rewrite Hp.
      * rewrite init_isPlaying, Hp.
        unfold gainInRange, init. rewrite Ec. cbn.
        unfold volumeRange. repeat split; try lra.
        repeat constructor; simpl; lra.
    + rewrite (start_when_idle h Hp). unfold gainInRange.
      cbn [ctx engine currentTime gain].
      assert (Hc : (0 <= currentTime (contextForStart h)) /\
                   volumeRange (value (gain (contextForStart h))) /\
                   Forall (fun e => volumeRange (ev_value e))
                          (events (gain (contextForStart h)))).
      { unfold contextForStart, gainInRange in *.
        destruct (ctx (engine h)); [exact H|]. cbn.
        unfold volumeRange. repeat split; try lra.
        repeat constructor; simpl; lra. }
      destruct Hc as (Ht & Hval & Hev).
      split; [exact Ht|]. split; [exact Hval|].
      rewrite fadeIn_events. apply Forall_app. split.
      * now apply cancel_in_range.
      * unfold volumeRange. repeat constructor; simpl; lra.
  - unfold stop. destruct (isPlaying (engine h)); [|exact H].
    destruct (source (engine h)); [|exact H].
    destruct (ctx (engine h)) as [c|] eqn:Ec; [|exact H].
    unfold gainInRange in *. rewrite Ec in H.
    cbn [ctx engine currentTime gain].
    destruct H as (Ht & Hval & Hev).
    split; [exact Ht|]. split; [exact Hval|].
    rewrite fadeOut_events. apply Forall_app. split.
    + now apply cancel_in_range.
    + constructor; [exact Hval|].
      constructor; [unfold volumeRange; simpl; lra | constructor].
  - unfold gainInRange in *. rewrite advance_ctx.
    destruct (ctx (engine h)) as [c|] eqn:Ec; [|exact I].
    cbn [option_map currentTime gain]. destruct H as (Ht & Hval & Hev).
    pose proof (audio_clock_moves_on (currentTime c) Hv) as Hmove.
    split; [lra|]. split; [|exact Hev].
    unfold renderParam. cbn [value]. unfold volumeRange.
    rewrite Qred_correct. apply timelineValue_in_range; try assumption. lra.
Qed.

Lemma reachable_gainInRange : forall h, reachable h -> gainInRange h.
Proof.
  induction 1 as [now rate | h o Hr IH Hv]; [exact I|].
  now apply gainInRange_op.
Qed.

(** X4.  In every state the engine can reach, the gain is between silence
    and the default volume 0.5: the value the getter returns, every value
    an event of the timeline holds, and the value the timeline prescribes
    at the current instant and at every later one. *)
Theorem gain_never_leaves_range : forall h c,
  reachable h ->
  ctx (engine h) = Some c ->
  volumeRange (value (gain c)) /\
  Forall (fun e => volumeRange (ev_value e)) (events (gain c)) /\
  (forall t, currentTime c <= t -> volumeRange (paramValueAt (gain c) t)).
Proof.
  intros h c Hr Hc. pose proof (reachable_gainInRange Hr) as H.
  unfold gainInRange in H. rewrite Hc in H. destruct H as (Ht & Hval & Hev).
  split; [exact Hval|]. split; [exact Hev|].
  intros t Hle. unfold paramValueAt.
  apply timelineValue_in_range; try assumption. lra.
Qed.

Lemma gain_never_leaves_range_witness :
  reachable sampleFadingOut /\
  volumeRange (1 # 4) /\
  volumeRange
    (paramValueAt
       (mkParam (1 # 4)
          [mkEvent SetValue 0 0; mkEvent SetValue (1 # 2) 2;
           mkEvent LinearRamp 0 (2 + 1)])
       (11 # 4)).
Proof.
  assert (Hr : reachable sampleFadingOut).
  { apply reachable_runOps; [|apply reach_new].
    repeat constructor; simpl; lia. }
  split; [exact Hr|].
  destruct (@gain_never_leaves_range sampleFadingOut
              (mkContext (5 # 2) 44100
                 (mkParam (1 # 4)
                    [mkEvent SetValue 0 0; mkEvent SetValue (1 # 2) 2;
                     mkEvent LinearRamp 0 (2 + 1)]))
              Hr eq_refl) as (H1 & _ & H3).
  split; [exact H1|]. apply H3. simpl. unfold Qle; simpl; lia.
Defined.

(** ** Where the envelopes end *)

Lemma envelope_done : forall t d v target earlier p t1,
  0 <= d -> t + d <= t1 ->
  Forall (fun e => ev_time e < t) earlier ->
  events p = earlier ++ [mkEvent SetValue v t;
                         mkEvent LinearRamp target (t + d)] ->
  paramValueAt p t1 = target /\ pendingRamps t1 p = [].
Proof.
  intros t d v target earlier p t1 Hd Ht1 Hk Hp. split.
  - unfold paramValueAt. rewrite Hp. rewrite timelineValue_after_set.
    + now apply timelineValue_ramp_done.
    + eapply Forall_impl; [|exact Hk]. simpl; intros e He. lra.
    + lra.
  - unfold pendingRamps. rewrite Hp. apply filter_none.
    apply Forall_app. split.
    + eapply Forall_impl; [|exact Hk]. simpl; intros e He.
      apply andb_false_iff. right. apply negb_false_iff.
      apply Qle_bool_iff. lra.
    + constructor; [reflexivity|]. constructor; [|constructor].
      simpl. apply negb_false_iff. now apply Qle_bool_iff.
Qed.

(** X5.  A fade-in that is not interrupted ends at the default volume:
    two seconds or more after a [start] on an idle engine, with no [stop]
    in between, the gain is exactly 0.5 and no ramp is pending. *)
Theorem fade_in_reaches_default_volume : forall h dt,
  isPlaying (engine h) = false ->
  (2000 <= dt)%Z ->
  let h1 := advance dt (start h) in
  exists g,
    engineGain h1 = Some g /\
    value g == 1 # 2 /\
    pendingRamps (audioTime h1) g = [].
Proof.
  intros h dt Hidle Hdt h1.
  set (c := contextForStart h).
  set (t0 := currentTime c).
  set (t1 := Qred (t0 + inject_Z dt / 1000)).
  set (g1 := renderParam t1 (fadeIn t0 (gain c))).
  assert (Hctx : ctx (engine h1) = Some (mkContext t1 (sampleRate c) g1)).
  { unfold h1. rewrite advance_ctx, (start_when_idle h Hidle). reflexivity. }
  assert (Ht1 : t0 + 2 <= t1).
  { unfold t1. rewrite Qred_correct. rewrite Zle_Qle in Hdt.
    change (inject_Z 2000) with 2000 in Hdt.
    unfold Qdiv. change (/ 1000) with (1 # 1000). lra. }
  destruct (@envelope_done t0 2 0 0.5 _ (fadeIn t0 (gain c)) t1
              ltac:(lra) Ht1 (cancel_keeps_earlier t0 (gain c))
              (fadeIn_events t0 (gain c))) as [Hv Hp].
  exists g1. split; [unfold engineGain; now rewrite Hctx|]. split.
  - unfold g1, renderParam. cbn [value]. rewrite Qred_correct, Hv.
    reflexivity.
  - unfold audioTime. rewrite Hctx. cbn [currentTime].
    unfold g1, renderParam, pendingRamps in *. exact Hp.
Qed.

Lemma fade_in_reaches_default_volume_witness :
  isPlaying (engine (newHost 0 44100)) = false /\
  (2000 <= 2500)%Z /\
  exists g,
    engineGain (advance 2500 (start (newHost 0 44100))) = Some g /\
    value g == 1 # 2.
Proof.
  split; [reflexivity|]. split; [lia|].
  destruct (@fade_in_reaches_default_volume (newHost 0 44100) 2500
              eq_refl ltac:(lia)) as (g & H1 & H2 & _).
  exists g. split; [exact H1 | exact H2].
Defined.

Lemma timeouts_stop_source : forall (due : list Z) e s,
  due <> [] ->
  source e = Some s ->
  exists s',
    source (fold_left (fun e _ => onFadeOutTimeout e) due e) = Some s' /\
    stopped s' = true /\ connected s' = false /\
    firstDraw s' = firstDraw s.
Proof.
  induction due as [|d due IH]; intros e s Hne Hs; [contradiction|].
  simpl. destruct due as [|d' due'].
  - simpl. rewrite Hs. simpl. eexists. repeat split.
  - destruct (IH (onFadeOutTimeout e)
                 (mkSource (firstDraw s) (bufferSize s) (loop s) false true))
      as (s' & H1 & H2 & H3 & H4); [discriminate | |].
    + simpl. now rewrite Hs.
    + exists s'. repeat split; assumption.
Qed.

(** X6.  A [stop] that passes its guard ends in silence: one second later
    the gain it ramped down is exactly 0, no ramp is pending, its timeout
    has run, the source is stopped and disconnected and the flag is
    clear. *)
Theorem stop_ends_in_silence : forall h,
  stopTakesEffect h ->
  let h1 := advance 1000 (stop h) in
  exists g src,
    engineGain h1 = Some g /\
    value g == 0 /\
    pendingRamps (audioTime h1) g = [] /\
    source (engine h1) = Some src /\
    stopped src = true /\
    connected src = false /\
    isPlaying (engine h1) = false.
Proof.
  intros h Hs h1. pose proof (stop_timeout_fires Hs) as Hoff.
  destruct Hs as (Hp & Hsrc & Hc).
  destruct (source (engine h)) as [src|] eqn:Es; [|contradiction].
  destruct (ctx (engine h)) as [c|] eqn:Ec; [|contradiction].
  set (t0 := currentTime c).
  set (t1 := Qred (t0 + inject_Z 1000 / 1000)).
  set (g1 := renderParam t1 (fadeOut t0 (gain c))).
  assert (Hctx : ctx (engine h1) = Some (mkContext t1 (sampleRate c) g1)).
  { unfold h1. rewrite advance_ctx, (stop_when_playing h Hp Es Ec).
    reflexivity. }
  assert (Ht1 : t0 + 1 <= t1).
  { unfold t1. rewrite Qred_correct.
    setoid_replace (inject_Z 1000 / 1000) with 1 by reflexivity. lra. }
  destruct (@envelope_done t0 1 (value (gain c)) 0 _ (fadeOut t0 (gain c)) t1
              ltac:(lra) Ht1 (cancel_keeps_earlier t0 (gain c))
              (fadeOut_events t0 (gain c))) as [Hv Hpend].
  assert (Hsrc1 : exists s',
             source (engine h1) = Some s' /\ stopped s' = true /\
             connected s' = false /\ firstDraw s' = firstDraw src).
  { unfold h1. rewrite (stop_when_playing h Hp Es Ec). unfold advance.
    cbn [timers clock engine]. apply timeouts_stop_source; [|reflexivity].
    rewrite filter_app. cbn [filter]. rewrite Z.leb_refl.
    intros E. apply app_eq_nil in E as [_ E]. discriminate. }
  destruct Hsrc1 as (s' & Hs1 & Hs2 & Hs3 & _).
  exists g1, s'. split; [unfold engineGain; now rewrite Hctx|]. split.
  { unfold g1, renderParam. cbn [value]. rewrite Qred_correct, Hv.
    reflexivity. }
  split.
  { unfold audioTime. rewrite Hctx. cbn [currentTime]. exact Hpend. }
  repeat split; assumption.
Qed.

Lemma stop_ends_in_silence_witness :
  stopTakesEffect samplePlaying /\
  exists g,
    engineGain (advance 1000 (stop samplePlaying)) = Some g /\
    value g == 0 /\
    isPlaying (engine (advance 1000 (stop samplePlaying))) = false.
Proof.
  assert (Hs : stopTakesEffect samplePlaying)
    by (repeat split; discriminate).
  split; [exact Hs|].
  destruct (stop_ends_in_silence Hs) as (g & src & H1 & H2 & _ & _ & _ & _ & H7).
  exists g. split; [exact H1|]. split; [exact H2 | exact H7].
Defined.

(** ** The buffer *)

Lemma getChannelData_length : forall random s,
  List.length (getChannelData random s) = N.to_nat (bufferSize s).
Proof.
  intros random s. unfold getChannelData, brownBuffer.
  now rewrite brownLoop_length, !length_map, length_seq.
Qed.

(** X7.  Every [start] that starts gives the engine a looping source whose
    buffer holds five seconds of audio at the context's sample rate, made
    of fresh random draws (none used before), and, the draws being in the
    unit interval, every sample of the buffer is within [-0.35, 0.35]. *)
Theorem started_source_has_five_gentle_seconds : forall h random,
  isPlaying (engine h) = false ->
  (forall i, 0 <= random i <= 1) ->
  exists src,
    source (engine (start h)) = Some src /\
    loop src = true /\
    firstDraw src = drawn h /\
    drawn (start h) = (firstDraw src + bufferSize src)%N /\
    List.length (getChannelData random src)
    = N.to_nat (sampleRate (contextForStart h) * 5) /\
    Forall gentleRange (getChannelData random src).
Proof.
  intros h random Hidle Hr. rewrite (start_when_idle h Hidle).
  eexists. cbn [source engine drawn]. split; [reflexivity|].
  cbn [loop firstDraw bufferSize]. repeat split.
  - apply getChannelData_length.
  - now apply getChannelData_gentle.
Qed.

Lemma started_source_has_five_gentle_seconds_witness :
  isPlaying (engine (newHost 0 8)) = false /\
  (forall i : N, 0 <= 1 # 2 <= 1) /\
  exists src,
    source (engine (start (newHost 0 8))) = Some src /\
    List.length (getChannelData (fun _ => 1 # 2) src) = 40%nat /\
    Forall gentleRange (getChannelData (fun _ => 1 # 2) src).
Proof.
  assert (Hr : forall i : N, 0 <= 1 # 2 <= 1) by (intros _; lra).
  split; [reflexivity|]. split; [exact Hr|].
  destruct (@started_source_has_five_gentle_seconds (newHost 0 8)
              (fun _ => 1 # 2) eq_refl Hr)
    as (src & H1 & _ & _ & _ & H5 & H6).
  exists src. split; [exact H1|]. split; [exact H5 | exact H6].
Defined.

End EngineExtras.

(* ================================================================== *)
(** * 15. Pages between events                                         *)
(* ================================================================== *)

Lemma start_clock : forall h, clock (start h) = clock h.
Proof.
  intros h. unfold start, init.
  destruct (ctx (engine h)) as [c|] eqn:Ec; cbn;
    destruct (isPlaying (engine h)); cbn; try rewrite Ec; reflexivity.
Qed.

Lemma init_clock : forall h, clock (init h) = clock h.
Proof. intros h. unfold init. now destruct (ctx (engine h)). Qed.

Lemma advance_clock : forall dt h, clock (advance dt h) = clock h + dt.
Proof. reflexivity. Qed.

Ltac reach_host :=
  solve [ repeat first
            [ assumption
            | apply (@reach_op _ OpStop); [|exact I]
            | apply (@reach_op _ OpStart); [|exact I]
            | apply (@reach_op _ OpInit); [|exact I] ] ].

Ltac same_clock := rewrite ?start_clock, ?stop_clock, ?init_clock.

Ltac settle :=
  first
    [ reflexivity
    | assumption
    | discriminate
    | reach_host
    | split; [reflexivity | discriminate]
    | split; [intros H; now elim H | discriminate]
    | intros s [= <-]; cbn; lia
    | intros s [= <-]; cbn; same_clock;
      split; [intros _; eexists; split; [reflexivity | lia] | discriminate]
    | intros s [= <-]; cbn; split; [discriminate | reflexivity] ].

Ltac show_fields :=
  cbn -[start stop init advance TOTAL_TIME toISOString nowToString
        stringifyHistory].

Ltac show_fields_in H :=
  cbn -[start stop init advance TOTAL_TIME toISOString nowToString
        stringifyHistory] in H.

Section SettledPages.

Lemma settled_firstRender : forall now rate loaded saved,
  settled (firstRender now rate loaded saved).
Proof.
  intros now rate loaded saved. constructor; cbn.
  - split; [intros H; now elim H | discriminate].
  - discriminate.
  - discriminate.
  - reflexivity.
  - reflexivity.
  - apply reach_new.
Qed.

Lemma boot_firstRender : forall now rate saved w0,
  boot now rate saved = Some w0 ->
  exists loaded,
    loadHistory saved = Some loaded /\
    w0 = firstRender now rate loaded saved.
Proof.
  intros now rate saved w0. unfold boot.
  destruct (loadHistory saved) as [loaded|]; [|discriminate].
  intros [= <-]. now exists loaded.
Qed.

Lemma boot_history : forall now rate saved w0,
  boot now rate saved = Some w0 ->
  loadHistory saved = Some (history w0).
Proof.
  intros now rate saved w0 H.
  destruct (boot_firstRender _ _ _ H) as (loaded & Hl & ->). exact Hl.
Qed.

Lemma settled_boot : forall now rate saved w0,
  boot now rate saved = Some w0 -> settled w0.
Proof.
  intros now rate saved w0 H.
  destruct (boot_firstRender _ _ _ H) as (loaded & _ & ->).
  apply settled_firstRender.
Qed.

Lemma settled_step : forall ev w w',
  settled w -> step ev w = Some w' -> settled w'.
Proof.
  intros ev w w' [Hm He Hi Hf Hs Hr] Hstep.
  pose proof (eq_refl : TOTAL_TIME = 1200) as HT.
  destruct w as [h v hist hc ls sv cl].
  cbn [sessionView view history historyChanged localStorage host] in *.
  subst hc.
  destruct sv as [[e a au iv]|].
  - (* a session is mounted *)
    assert (Hv : v = view_session) by (apply Hm; discriminate). subst v.
    specialize (He _ eq_refl). specialize (Hi _ eq_refl).
    cbn [elapsed isActive interval] in He, Hi. destruct Hi as [Hon Hoff].
    destruct ev; show_fields_in Hstep; try discriminate.
    + (* Tick *)
      destruct iv as [due|]; [|discriminate].
      destruct (due <=? clock h); [|discriminate].
      destruct a; [|now specialize (Hoff eq_refl)].
      injection Hstep as <-. unfold timerEffect. cbn [elapsed isActive andb].
      destruct (e + 1 <? TOTAL_TIME) eqn:Elt.
      * apply Z.ltb_lt in Elt. constructor; show_fields; settle.
      * apply Z.ltb_ge in Elt. apply Z.leb_le in Elt. rewrite Elt.
        constructor; show_fields; settle.
    + (* TogglePlay *)
      injection Hstep as <-. unfold timerEffect, audioEffect.
      cbn [elapsed isActive isAudioOn].
      assert (Elt : (e <? TOTAL_TIME) = true) by (apply Z.ltb_lt; lia).
      assert (Ege : (TOTAL_TIME <=? e) = false) by (apply Z.leb_gt; lia).
      rewrite Elt, Ege.
      destruct a, au; constructor; show_fields; settle.
    + (* ToggleAudio *)
      injection Hstep as <-. unfold audioEffect.
      cbn [elapsed isActive isAudioOn].
      destruct a, au; constructor; show_fields;
        try settle;
        (intros s [= <-]; cbn [isActive interval]; same_clock;
         split; [exact Hon | exact Hoff]).
    + (* ClickExit *)
      injection Hstep as <-.
      destruct confirmed; constructor; show_fields;
        try settle;
        (intros s [= <-]; cbn [isActive interval]; same_clock;
         split; [exact Hon | exact Hoff]).
    + (* Wait *)
      destruct (0 <=? dt) eqn:Edt; [|discriminate]. apply Z.leb_le in Edt.
      injection Hstep as <-. constructor; show_fields; try settle.
      * intros s [= <-]. cbn [isActive interval]. split; [|exact Hoff].
        intros Ha. destruct (Hon Ha) as (due & Hd1 & Hd2).
        exists due. split; [exact Hd1|]. rewrite advance_clock. lia.
      * apply (@reach_op _ (OpWait dt)); [exact Hr | exact Edt].
  - (* no session is mounted *)
    assert (Hv : v <> view_session).
    { intros E. apply Hm in E. now elim E. }
    destruct ev, v; show_fields_in Hstep;
      try discriminate; try (now elim Hv);
      try (destruct (0 <=? dt) eqn:Edt; [|discriminate];
           apply Z.leb_le in Edt);
      injection Hstep as <-; constructor; show_fields;
      try settle;
      try (apply (@reach_op _ (OpWait dt)); [exact Hr | exact Edt]).
Qed.

Lemma settled_run : forall evs w w',
  settled w -> run evs w = Some w' -> settled w'.
Proof.
  induction evs as [|ev evs IH]; intros w w' Hs Hrun.
  - now injection Hrun as <-.
  - cbn [run] in Hrun. destruct (step ev w) as [w1|] eqn:Hstep;
      [|discriminate].
    exact (IH w1 w' (@settled_step ev w w1 Hs Hstep) Hrun).
Qed.

End SettledPages.

(* ================================================================== *)
(** * 16. The history, the store and the dashboard                     *)
(* ================================================================== *)

Section HistoryExtras.

Lemma step_history : forall ev w w',
  settled w -> step ev w = Some w' ->
  history w' = history w \/
  (ev = Tick /\
   history w' = history w ++ [completedRecord (clock (host w)) TOTAL_TIME]).
Proof.
  intros ev w w' [Hm He Hi Hf Hs Hr] Hstep.
  pose proof (eq_refl : TOTAL_TIME = 1200) as HT.
  destruct w as [h v hist hc ls sv cl].
  cbn [sessionView view history historyChanged localStorage host] in *.
  subst hc.
  destruct sv as [[e a au iv]|].
  - assert (Hv : v = view_session) by (apply Hm; discriminate). subst v.
    specialize (He _ eq_refl). cbn [elapsed] in He.
    destruct ev; show_fields_in Hstep; try discriminate.
    + destruct iv as [due|]; [|discriminate].
      destruct (due <=? clock h); [|discriminate].
      injection Hstep as <-. unfold timerEffect. cbn [elapsed isActive].
      destruct (e + 1 <? TOTAL_TIME) eqn:Elt.
      * left. apply Z.ltb_lt in Elt.
        assert (Ege : (TOTAL_TIME <=? e + 1) = false)
          by (apply Z.leb_gt; lia).
        rewrite Ege. destruct a; reflexivity.
      * right. split; [reflexivity|]. apply Z.ltb_ge in Elt.
        assert (E1 : e + 1 = TOTAL_TIME) by lia.
        rewrite andb_false_r. rewrite E1, Z.leb_refl.
        show_fields. unfold completedRecord. now rewrite stop_clock.
    + left. injection Hstep as <-. unfold timerEffect, audioEffect.
      cbn [elapsed isActive isAudioOn].
      assert (Elt : (e <? TOTAL_TIME) = true) by (apply Z.ltb_lt; lia).
      assert (Ege : (TOTAL_TIME <=? e) = false) by (apply Z.leb_gt; lia).
      rewrite Elt, Ege. destruct a, au; reflexivity.
    + left. injection Hstep as <-. unfold audioEffect.
      cbn [isActive isAudioOn]. destruct a, au; reflexivity.
    + left. injection Hstep as <-. destruct confirmed; reflexivity.
    + left. destruct (0 <=? dt); [|discriminate].
      injection Hstep as <-. reflexivity.
  - left. destruct ev, v; show_fields_in Hstep; try discriminate;
      try (destruct (0 <=? dt); [|discriminate]);
      injection Hstep as <-; reflexivity.
Qed.

Lemma run_history : forall evs w w',
  settled w -> run evs w = Some w' ->
  exists added,
    history w' = history w ++ added /\
    Forall (fun r => completed r = true /\ duration r = TOTAL_TIME) added /\
    (List.length added <= List.length evs)%nat.
Proof.
  induction evs as [|ev evs IH]; intros w w' Hs Hrun.
  - injection Hrun as <-. exists []. rewrite app_nil_r.
    repeat split; constructor.
  - cbn [run] in Hrun. destruct (step ev w) as [w1|] eqn:Hstep;
      [|discriminate].
    pose proof (@settled_step ev w w1 Hs Hstep) as Hs1.
    destruct (IH w1 w' Hs1 Hrun) as (added & Hh & Hall & Hlen).
    destruct (@step_history ev w w1 Hs Hstep) as [E | [_ E]].
    + exists added. rewrite Hh, E. repeat split; try assumption.
      simpl. lia.
    + exists (completedRecord (clock (host w)) TOTAL_TIME :: added).
      rewrite Hh, E, <- app_assoc. repeat split.
      * constructor; [split; reflexivity | exact Hall].
      * simpl. lia.
Qed.

(** ** Stores a page can be loaded from *)

Lemma recordOfJSON_Some : forall j r,
  recordOfJSON j = Some r -> j = recordToJSON r.
Proof.
  intros j r H. unfold recordOfJSON in H.
  destruct j as [| | | |items|fs]; try discriminate.
  destruct fs as [|[k1 v1] fs]; [discriminate|].
  destruct v1 as [| | |i| |]; try discriminate.
  destruct fs as [|[k2 v2] fs]; [discriminate|].
  destruct v2 as [| | |d| |]; try discriminate.
  destruct fs as [|[k3 v3] fs]; [discriminate|].
  destruct v3 as [| |n| | |]; try discriminate.
  destruct fs as [|[k4 v4] fs]; [discriminate|].
  destruct v4 as [|c| | | |]; try discriminate.
  destruct fs as [|? ?]; [|discriminate].
  destruct (String.eqb k1 "id") eqn:E1; [|discriminate].
  destruct (String.eqb k2 "date") eqn:E2; [|discriminate].
  destruct (String.eqb k3 "duration") eqn:E3; [|discriminate].
  destruct (String.eqb k4 "completed") eqn:E4; [|discriminate].
  apply String.eqb_eq in E1, E2, E3, E4. subst.
  cbn in H. injection H as <-. reflexivity.
Qed.

Lemma recordsOfJSON_Some : forall items h,
  recordsOfJSON items = Some h -> items = map recordToJSON h.
Proof.
  induction items as [|j items IH]; intros h H.
  - injection H as <-. reflexivity.
  - cbn [recordsOfJSON] in H.
    destruct (recordOfJSON j) as [r|] eqn:Er; [|discriminate].
    destruct (recordsOfJSON items) as [rs|]; [|discriminate].
    injection H as <-. cbn [map].
    now rewrite (recordOfJSON_Some _ Er), (IH rs eq_refl).
Qed.

(** A history is read from the store exactly when the store is empty, and
    the history is then empty, or holds what [JSON.stringify] gives for
    that history. *)
Lemma loadHistory_Some : forall saved h,
  loadHistory saved = Some h <->
  (saved = None /\ h = []) \/ saved = Some (stringifyHistory h).
Proof.
  intros saved h. split.
  - destruct saved as [j|]; cbn [loadHistory].
    + destruct j as [| | | |items|fs]; try discriminate.
      intros H. right. unfold stringifyHistory.
      now rewrite (recordsOfJSON_Some _ H).
    + intros [= <-]. now left.
  - intros [[-> ->] | ->]; [reflexivity|].
    apply loadHistory_stringifyHistory.
Qed.

(** X8.  On a page loaded over a store that holds a [SessionRecord[]]
    (an empty store, or what [JSON.stringify] gives for a list of
    records), once the effects of an update have run the store holds the
    history as it is in memory, whatever events came before; so a restart
    at that point loses nothing: the page loads again, with the same
    history. *)
Theorem store_follows_history : forall now rate saved w0 evs w,
  boot now rate saved = Some w0 ->
  run evs w0 = Some w ->
  ((saved = None /\ history w0 = []) \/
   saved = Some (stringifyHistory (history w0))) /\
  historyChanged w = false /\
  localStorage w = Some (stringifyHistory (history w)) /\
  option_map history (restart w) = Some (history w).
Proof.
  intros now rate saved w0 evs w Hboot Hrun.
  destruct (settled_run evs (settled_boot _ _ _ Hboot) Hrun)
    as [_ _ _ Hf Hs _].
  split; [apply loadHistory_Some; now apply (boot_history now rate)|].
  split; [exact Hf|]. split; [exact Hs|].
  rewrite restart_history, Hs. apply loadHistory_stringifyHistory.
Qed.

Lemma store_follows_history_witness :
  boot 1700000000000 44100 None = Some samplePage /\
  run (SplashDone :: ClickStart :: seconds 1200) samplePage
  = Some (afterRun (seconds 1200) sampleSession) /\
  option_map history (restart (afterRun (seconds 1200) sampleSession))
  = Some (history (afterRun (seconds 1200) sampleSession)).
Proof.
  assert (H0 : boot 1700000000000 44100 None = Some samplePage)
    by reflexivity.
  assert (H : run (SplashDone :: ClickStart :: seconds 1200) samplePage
              = Some (afterRun (seconds 1200) sampleSession))
    by (vm_compute; reflexivity).
  split; [exact H0|]. split; [exact H|].
  exact (proj2 (proj2 (proj2 (store_follows_history _ _ _ _ H0 H)))).
Defined.

(** X9.  The history only grows, and only by completed sessions: on a
    page loaded over a store that holds a [SessionRecord[]], over any run
    of events the history at the end is the history read from the store
    followed by the records added, every added record has
    [completed = true] and [duration] 1200, and nothing is ever removed,
    reordered or rewritten. *)
Theorem history_is_append_only : forall now rate saved w0 evs w,
  boot now rate saved = Some w0 ->
  run evs w0 = Some w ->
  exists loaded added,
    loadHistory saved = Some loaded /\
    history w = loaded ++ added /\
    Forall (fun r => completed r = true /\ duration r = 1200) added /\
    (List.length added <= List.length evs)%nat.
Proof.
  intros now rate saved w0 evs w Hboot Hrun.
  destruct (run_history evs (settled_boot _ _ _ Hboot) Hrun)
    as (added & Hh & Hall & Hlen).
  exists (history w0), added.
  split; [now apply (boot_history now rate)|].
  split; [exact Hh|]. split; [exact Hall | exact Hlen].
Qed.

Lemma history_is_append_only_witness :
  boot 1700000000000 44100 (Some (stringifyHistory sampleHistory))
  = Some sampleReturningPage /\
  run (SplashDone :: ClickStart :: seconds 1200) sampleReturningPage
  = Some (afterRun (SplashDone :: ClickStart :: seconds 1200)
                   sampleReturningPage) /\
  exists added,
    history (afterRun (SplashDone :: ClickStart :: seconds 1200)
                      sampleReturningPage)
    = sampleHistory ++ added /\
    Forall (fun r => completed r = true /\ duration r = 1200) added.
Proof.
  assert (H0 : boot 1700000000000 44100
                    (Some (stringifyHistory sampleHistory))
               = Some sampleReturningPage) by reflexivity.
  assert (H : run (SplashDone :: ClickStart :: seconds 1200)
                  sampleReturningPage
              = Some (afterRun (SplashDone :: ClickStart :: seconds 1200)
                               sampleReturningPage))
    by (vm_compute; reflexivity).
  split; [exact H0|]. split; [exact H|].
  destruct (history_is_append_only _ _ _ _ H0 H)
    as (loaded & added & H1 & H2 & H3 & _).
  exists added. split; [|exact H3].
  rewrite H2. f_equal.
  rewrite loadHistory_stringifyHistory in H1. now injection H1.
Defined.

(** ** The dashboard *)



Lemma streak_length : forall h, streak h = List.length h.
Proof. now intros [|r h]. Qed.



End HistoryExtras.

(* ================================================================== *)
(** * 17. What the session view shows                                  *)
(* ================================================================== *)

Section DisplayExtras.

Lemma formatTime_checked :
  forallb
    (fun n =>
       match readClock (formatTime (Z.of_nat n)) with
       | Some z =>
           (z =? Z.of_nat n)
           && (String.length (formatTime (Z.of_nat n)) =? 5)%nat
       | None => false
       end)
    (seq 0 (Z.to_nat 6000))
  = true.
Proof. vm_compute. reflexivity. Qed.

Lemma formatTime_reads_back_in_range : forall n,
  0 <= n < 6000 ->
  String.length (formatTime n) = 5%nat /\
  readClock (formatTime n) = Some n.
Proof.
  intros n Hn. pose proof formatTime_checked as Hc.
  rewrite forallb_forall in Hc.
  specialize (Hc (Z.to_nat n)).
  rewrite Z2Nat.id in Hc by lia.
  assert (Hin : In (Z.to_nat n) (seq 0 (Z.to_nat 6000))) by (apply in_seq; lia).
  specialize (Hc Hin).
  destruct (readClock (formatTime n)) as [z|]; [|discriminate].
  apply andb_true_iff in Hc as [Hz Hl].
  apply Z.eqb_eq in Hz. apply Nat.eqb_eq in Hl. now subst z.
Qed.

(** X11.  For every number of seconds from 0 up to, not including, 6000
    (a hundred minutes), [formatTime] gives a five-character [MM:SS] text
    that reads back as that number; so two different times in the range
    are never shown alike. *)
Theorem formatTime_reads_back : forall seconds,
  0 <= seconds < 6000 ->
  String.length (formatTime seconds) = 5%nat /\
  readClock (formatTime seconds) = Some seconds /\
  (forall other, 0 <= other < 6000 ->
                 formatTime other = formatTime seconds -> other = seconds).
Proof.
  pose proof formatTime_reads_back_in_range as H.
  intros seconds Hs. destruct (H seconds Hs) as [Hl Hr].
  split; [exact Hl|]. split; [exact Hr|].
  intros other Ho E. destruct (H other Ho) as [_ Hr'].
  rewrite E, Hr in Hr'. now injection Hr'.
Qed.

Lemma formatTime_reads_back_witness :
  0 <= 1199 < 6000 /\
  readClock (formatTime 1199) = Some 1199 /\
  String.length (formatTime 1199) = 5%nat.
Proof.
  assert (H : 0 <= 1199 < 6000) by lia.
  split; [exact H|].
  destruct (formatTime_reads_back H) as (H1 & H2 & _).
  split; [exact H2 | exact H1].
Defined.

Lemma progress_range : forall s,
  0 <= elapsed s < TOTAL_TIME -> (0 <= progress s < 100)%Q.
Proof.
  intros s [Hlo Hhi]. unfold progress, TOTAL_TIME in *.
  rewrite Zle_Qle in Hlo. rewrite Zlt_Qlt in Hhi.
  change (inject_Z 0) with 0%Q in Hlo.
  change (inject_Z (20 * 60)) with 1200%Q in *.
  unfold Qdiv. change (/ 1200)%Q with (1 # 1200)%Q. split; lra.
Qed.

Lemma progress_range_closed : forall s,
  0 <= elapsed s <= TOTAL_TIME -> (0 <= progress s <= 100)%Q.
Proof.
  intros s [Hlo Hhi]. unfold progress, TOTAL_TIME in *.
  rewrite Zle_Qle in Hlo, Hhi.
  change (inject_Z 0) with 0%Q in Hlo.
  change (inject_Z (20 * 60)) with 1200%Q in *.
  unfold Qdiv. change (/ 1200)%Q with (1 # 1200)%Q. split; lra.
Qed.

(** A delivered tick runs the effects of the render with [afterTick]. *)
Lemma tick_renders_afterTick : forall w s due,
  view w = view_session ->
  sessionView w = Some s ->
  interval s = Some due ->
  due <= clock (host w) ->
  step Tick w
  = Some (commit (timerEffect (afterTick s)
                    (clearInterval (setSessionView (Some (afterTick s)) w)))).
Proof.
  intros w s due Hv Hs Hi Hdue. unfold step. rewrite Hv, Hs, Hi.
  apply Z.leb_le in Hdue. now rewrite Hdue.
Qed.

(** X12.  What a session shows.  On a page reached from a load, once the
    effects of an update have run a mounted session has [elapsed] at
    least 0 and below 1200.  The view is rendered with that state or,
    when a tick is delivered, with the state [setElapsed] leaves, which
    React puts on screen before the timer effect of that render runs: at
    [elapsed = 1200] this is the render of the completed session, shown
    until the effect has unmounted the view.  Every such render has
    [elapsed] from 0 to 1200, a clock face that is a five-character
    [MM:SS] reading back as [1200 - elapsed], and a progress from 0 to
    100; the completing render shows [00:00] and 100, and no state at
    rest reaches 100. *)
Theorem session_display_is_well_formed :
  forall now rate loaded saved evs w s shown,
  run evs (firstRender now rate loaded saved) = Some w ->
  sessionView w = Some s ->
  shown = s \/ shown = afterTick s ->
  view w = view_session /\
  0 <= elapsed s < 1200 /\
  (0 <= progress s < 100)%Q /\
  0 <= elapsed shown <= 1200 /\
  String.length (timeDisplay shown) = 5%nat /\
  readClock (timeDisplay shown) = Some (1200 - elapsed shown) /\
  (0 <= progress shown <= 100)%Q /\
  (elapsed s = 1199 ->
   timeDisplay (afterTick s) = "00:00" /\
   (progress (afterTick s) == 100)%Q).
Proof.
  intros now rate loaded saved evs w s shown Hrun Hs Hshown.
  destruct (settled_run evs (settled_firstRender now rate loaded saved) Hrun)
    as [Hm He _ _ _ _].
  specialize (He s Hs).
  assert (HT : TOTAL_TIME = 1200) by reflexivity.
  assert (Hsh : 0 <= elapsed shown <= 1200)
    by (destruct Hshown as [-> | ->]; cbn [afterTick elapsed]; lia).
  split; [apply Hm; rewrite Hs; discriminate|].
  split; [lia|]. split; [apply progress_range; lia|]. split; [exact Hsh|].
  assert (Hrem : 0 <= TOTAL_TIME - elapsed shown < 6000) by lia.
  destruct (formatTime_reads_back_in_range Hrem) as [Hl Hr].
  unfold timeDisplay at 1 2. rewrite Hl, Hr, HT.
  split; [reflexivity|]. split; [reflexivity|].
  split; [apply progress_range_closed; lia|].
  intros E. unfold timeDisplay, progress. cbn [afterTick elapsed].
  rewrite E. split; reflexivity.
Qed.

Lemma session_display_is_well_formed_witness :
  run (SplashDone :: ClickStart :: seconds 1199 ++ [Wait 1000])
      (firstRender 1700000000000 44100 [] None)
  = Some sampleLastSecond /\
  sessionView sampleLastSecond
  = Some (mkSession 1199 true true (Some 1700001200000)) /\
  readClock (timeDisplay
               (afterTick (mkSession 1199 true true (Some 1700001200000))))
  = Some (1200 - 1200) /\
  timeDisplay (afterTick (mkSession 1199 true true (Some 1700001200000)))
  = "00:00".
Proof.
  assert (H1 : run (SplashDone :: ClickStart :: seconds 1199 ++ [Wait 1000])
                   (firstRender 1700000000000 44100 [] None)
               = Some sampleLastSecond)
    by (vm_compute; reflexivity).
  assert (H2 : sessionView sampleLastSecond
               = Some (mkSession 1199 true true (Some 1700001200000)))
    by (vm_compute; reflexivity).
  destruct (@session_display_is_well_formed
              1700000000000 44100 [] None _ _ _
              (afterTick (mkSession 1199 true true (Some 1700001200000)))
              H1 H2 (or_intror eq_refl))
    as (_ & _ & _ & _ & _ & H5 & _ & H7).
  split; [exact H1|]. split; [exact H2|]. split; [exact H5|].
  exact (proj1 (H7 eq_refl)).
Defined.

End DisplayExtras.

(* ================================================================== *)
(** * 18. Pausing, resuming and running to the end                     *)
(* ================================================================== *)

Section SessionExtras.



Lemma wait_keeps_page : forall dt w w',
  step (Wait dt) w = Some w' ->
  sessionView w' = sessionView w /\ view w' = view w /\
  history w' = history w /\ calls w' = calls w /\
  host w' = advance dt (host w) /\ 0 <= dt.
Proof.
  intros dt w w' H. unfold step in H.
  assert (E : (if 0 <=? dt then Some (setHost (advance dt (host w)) w)
               else None) = Some w')
    by (destruct (view w), (sessionView w); exact H).
  destruct (0 <=? dt) eqn:Edt; [|discriminate]. injection E as <-.
  apply Z.leb_le in Edt. repeat split. exact Edt.
Qed.

Lemma waits_keep_page : forall dts w w',
  run (map Wait dts) w = Some w' ->
  sessionView w' = sessionView w /\ view w' = view w /\
  clock (host w) <= clock (host w').
Proof.
  induction dts as [|dt dts IH]; intros w w' Hrun.
  - injection Hrun as <-. repeat split. lia.
  - cbn [map run] in Hrun.
    destruct (step (Wait dt) w) as [w1|] eqn:Hstep; [|discriminate].
    destruct (wait_keeps_page _ _ Hstep) as (H1 & H2 & _ & _ & H5 & H6).
    destruct (IH w1 w' Hrun) as (H1' & H2' & H3').
    rewrite H1', H2', H1, H2. repeat split.
    rewrite H5, advance_clock in H3'. lia.
Qed.

(** X13.  Pausing freezes the timer and resuming takes it up where it
    stood: after the play button is pressed on a running session, no
    interval is armed, so however much time goes by no tick can be
    delivered and [elapsed] keeps its value; pressing the button again
    arms a fresh one-second interval with [elapsed] unchanged. *)
Theorem pause_freezes_the_timer : forall w s,
  view w = view_session ->
  sessionView w = Some s ->
  isActive s = true ->
  elapsed s < TOTAL_TIME ->
  exists w1,
    step TogglePlay w = Some w1 /\
    forall dts w2,
      run (map Wait dts) w1 = Some w2 ->
      sessionView w2 = Some (mkSession (elapsed s) false (isAudioOn s) None) /\
      step Tick w2 = None /\
      exists w3,
        step TogglePlay w2 = Some w3 /\
        sessionView w3
        = Some (mkSession (elapsed s) true (isAudioOn s)
                          (Some (clock (host w2) + 1000))).
Proof.
  intros w s Hv Hs Ha Hlt.
  destruct w as [h v hist hc ls sv cl]. cbn in Hv, Hs. subst v sv.
  destruct s as [e a au iv]. cbn [isActive elapsed isAudioOn] in *. subst a.
  assert (Elt : (e <? TOTAL_TIME) = true) by (now apply Z.ltb_lt).
  assert (Ege : (TOTAL_TIME <=? e) = false) by (now apply Z.leb_gt).
  eexists. split; [reflexivity|].
  intros dts w2 Hrun.
  destruct (waits_keep_page _ _ Hrun) as (H1 & H2 & _).
  assert (Hs2 : sessionView w2 = Some (mkSession e false au None)).
  { rewrite H1. unfold timerEffect, audioEffect.
    cbn [elapsed isActive isAudioOn negb andb]. rewrite Ege.
    show_fields. destruct hc; reflexivity. }
  assert (Hv2 : view w2 = view_session).
  { rewrite H2. unfold timerEffect, audioEffect.
    cbn [elapsed isActive isAudioOn negb andb]. rewrite Ege.
    show_fields. destruct hc; reflexivity. }
  split; [exact Hs2|]. split.
  - unfold step. now rewrite Hv2, Hs2.
  - destruct w2 as [h2 v2 hist2 hc2 ls2 sv2 cl2]. cbn in Hs2, Hv2.
    subst v2 sv2. eexists. split; [reflexivity|].
    unfold timerEffect, audioEffect.
    cbn [elapsed isActive isAudioOn negb andb]. rewrite Elt.
    show_fields. rewrite stop_clock. destruct au, hc2; reflexivity.
Qed.

Lemma pause_freezes_the_timer_witness :
  view (afterRun (seconds 7) sampleSession) = view_session /\
  sessionView (afterRun (seconds 7) sampleSession)
  = Some (mkSession 7 true true (Some 1700000008000)) /\
  exists w1,
    step TogglePlay (afterRun (seconds 7) sampleSession) = Some w1 /\
    forall w2, run (map Wait [5000; 60000]) w1 = Some w2 ->
               step Tick w2 = None.
Proof.
  assert (H1 : view (afterRun (seconds 7) sampleSession) = view_session)
    by (vm_compute; reflexivity).
  assert (H2 : sessionView (afterRun (seconds 7) sampleSession)
               = Some (mkSession 7 true true (Some 1700000008000)))
    by (vm_compute; reflexivity).
  split; [exact H1|]. split; [exact H2|].
  destruct (pause_freezes_the_timer _ H1 H2 eq_refl eq_refl)
    as (w1 & Hstep & Hafter).
  exists w1. split; [exact Hstep|].
  intros w2 Hrun. exact (proj1 (proj2 (Hafter _ _ Hrun))).
Defined.

(** ** Ticks that arrive on time *)







Lemma stop_drawn : forall h, drawn (stop h) = drawn h.
Proof.
  intros h. unfold stop.
  destruct (isPlaying (engine h)), (source (engine h)), (ctx (engine h));
    reflexivity.
Qed.

Lemma advance_drawn : forall dt h, drawn (advance dt h) = drawn h.
Proof. reflexivity. Qed.

(** ** The handlers on explicit pages *)

Lemma audioEngine_stop_eq : forall h v hist hc ls sv cl,
  audioEngine_stop (mkWorld h v hist hc ls sv cl)
  = mkWorld (stop h) v hist hc ls sv (cl ++ [CallStop]).
Proof. reflexivity. Qed.

Lemma audioEngine_start_eq : forall h v hist hc ls sv cl,
  audioEngine_start (mkWorld h v hist hc ls sv cl)
  = mkWorld (start h) v hist hc ls sv (cl ++ [CallStart]).
Proof. reflexivity. Qed.

Lemma clearInterval_eq : forall h v hist hc ls e a au iv cl,
  clearInterval (mkWorld h v hist hc ls (Some (mkSession e a au iv)) cl)
  = mkWorld h v hist hc ls (Some (mkSession e a au None)) cl.
Proof. reflexivity. Qed.

Lemma armInterval_eq : forall h v hist hc ls e a au iv cl,
  armInterval (mkWorld h v hist hc ls (Some (mkSession e a au iv)) cl)
  = mkWorld h v hist hc ls
            (Some (mkSession e a au (Some (clock h + 1000)))) cl.
Proof. reflexivity. Qed.

Lemma setSessionView_eq : forall s h v hist hc ls sv cl,
  setSessionView s (mkWorld h v hist hc ls sv cl)
  = mkWorld h v hist hc ls s cl.
Proof. reflexivity. Qed.

Lemma timerEffect_paused : forall e au iv w,
  e < TOTAL_TIME -> timerEffect (mkSession e false au iv) w = w.
Proof.
  intros e au iv w Hlt. unfold timerEffect. cbn [isActive elapsed andb].
  apply Z.leb_gt in Hlt. now rewrite Hlt.
Qed.

Lemma timerEffect_running : forall e au iv w,
  e < TOTAL_TIME -> timerEffect (mkSession e true au iv) w = armInterval w.
Proof.
  intros e au iv w Hlt. unfold timerEffect. cbn [isActive elapsed andb].
  apply Z.ltb_lt in Hlt. now rewrite Hlt.
Qed.

Lemma commit_in_session : forall h hist ls s cl,
  commit (mkWorld h view_session hist false ls (Some s) cl)
  = mkWorld h view_session hist false ls (Some s) cl.
Proof. reflexivity. Qed.

Lemma step_wait : forall dt h v hist hc ls sv cl,
  0 <= dt ->
  step (Wait dt) (mkWorld h v hist hc ls sv cl)
  = Some (mkWorld (advance dt h) v hist hc ls sv cl).
Proof.
  intros dt h v hist hc ls sv cl Hdt. apply Z.leb_le in Hdt.
  unfold step. cbn [view sessionView host]. rewrite Hdt.
  destruct v, sv; reflexivity.
Qed.

Lemma step_pause : forall h hist ls e au iv cl,
  e < TOTAL_TIME ->
  step TogglePlay
       (mkWorld h view_session hist false ls
                (Some (mkSession e true au iv)) cl)
  = Some (mkWorld (stop (stop h)) view_session hist false ls
                  (Some (mkSession e false au None))
                  (cl ++ [CallStop; CallStop])).
Proof.
  intros h hist ls e au iv cl Hlt.
  unfold step. cbn [view sessionView isActive isAudioOn elapsed interval negb].
  rewrite setSessionView_eq, clearInterval_eq, audioEngine_stop_eq.
  rewrite (timerEffect_paused _ _ _ Hlt).
  unfold audioEffect. cbn [isActive isAudioOn andb].
  rewrite audioEngine_stop_eq, commit_in_session.
  now rewrite <- app_assoc.
Qed.

Lemma step_resume : forall h hist ls e iv cl,
  e < TOTAL_TIME ->
  step TogglePlay
       (mkWorld h view_session hist false ls
                (Some (mkSession e false true iv)) cl)
  = Some (mkWorld (start (stop h)) view_session hist false ls
                  (Some (mkSession e true true (Some (clock h + 1000))))
                  (cl ++ [CallStop; CallStart])).
Proof.
  intros h hist ls e iv cl Hlt.
  unfold step. cbn [view sessionView isActive isAudioOn elapsed interval negb].
  rewrite setSessionView_eq, clearInterval_eq, audioEngine_stop_eq.
  rewrite (timerEffect_running _ _ _ Hlt), armInterval_eq.
  unfold audioEffect. cbn [isActive isAudioOn andb].
  rewrite audioEngine_start_eq, commit_in_session.
  now rewrite stop_clock, <- app_assoc.
Qed.

(** ** Resuming too soon *)

Lemma advance_keeps_idle : forall dt h,
  isPlaying (engine h) = false -> isPlaying (engine (advance dt h)) = false.
Proof.
  intros dt h Hp. unfold advance. cbn [engine].
  destruct (filter (fun d => d <=? clock h + dt) (timers h)) as [|d due] eqn:E.
  - exact Hp.
  - apply timeouts_isPlaying. discriminate.
Qed.

Lemma time_passing_keeps_idle : forall evs w w',
  Forall timePassing evs ->
  isPlaying (engine (host w)) = false ->
  run evs w = Some w' ->
  isPlaying (engine (host w')) = false.
Proof.
  induction evs as [|ev evs IH]; intros w w' Hev Hp Hrun.
  - now injection Hrun as <-.
  - inversion Hev as [|? ? Hhd Htl]; subst. cbn [run] in Hrun.
    destruct (step ev w) as [w1|] eqn:Hstep; [|discriminate].
    apply (IH w1 w' Htl); [|exact Hrun]. clear IH Hrun.
    destruct ev; try contradiction.
    + destruct w as [h v hist hc ls sv cl]. cbn [host] in Hp.
      unfold step in Hstep. cbn [view sessionView] in Hstep.
      destruct v; try discriminate.
      destruct sv as [[e a au iv]|]; [|discriminate].
      cbn [interval host] in Hstep.
      destruct iv as [due|]; [|discriminate].
      destruct (due <=? clock h); [|discriminate].
      injection Hstep as <-. unfold timerEffect. cbn [elapsed isActive].
      destruct (a && (e + 1 <? TOTAL_TIME)).
      * show_fields. destruct hc; exact Hp.
      * destruct (TOTAL_TIME <=? e + 1); show_fields.
        -- rewrite !(stop_when_idle h Hp). exact Hp.
        -- destruct hc; exact Hp.
    + destruct (wait_keeps_page _ _ Hstep) as (_ & _ & _ & _ & Hh & _).
      rewrite Hh. now apply advance_keeps_idle.
Qed.

(** X15.  Resuming less than a second after pausing leaves the session
    without sound.  On a page with a running session and audio playing,
    pause, wait [dt < 1000] ms, resume: [start] finds [isPlaying] still
    set and does nothing, and the timeouts of the [stop] calls then run.
    One second later the session is active with audio switched on, the
    timer goes on, but the engine is not playing, no timeout is pending,
    and no tick and no lapse of time brings the sound back. *)
Theorem quick_resume_leaves_audio_off : forall w s dt,
  settled w ->
  sessionView w = Some s ->
  isActive s = true ->
  isAudioOn s = true ->
  isPlaying (engine (host w)) = true ->
  timers (host w) = [] ->
  0 <= dt < 1000 ->
  exists w',
    run [TogglePlay; Wait dt; TogglePlay; Wait 1000] w = Some w' /\
    sessionView w'
    = Some (mkSession (elapsed s) true true
                      (Some (clock (host w) + dt + 1000))) /\
    isPlaying (engine (host w')) = false /\
    timers (host w') = [] /\
    (forall evs w'',
       Forall timePassing evs -> run evs w' = Some w'' ->
       isPlaying (engine (host w'')) = false).
Proof.
  intros w s dt [Hm He _ Hf _ Hr] Hs Ha Hau Hp Ht Hdt.
  specialize (He s Hs).
  assert (Hv : view w = view_session) by (apply Hm; rewrite Hs; discriminate).
  destruct w as [h v hist hc ls sv cl]. cbn in Hs, Hv, Hf, Hr, Hp, Ht. subst.
  destruct s as [e a au iv]. cbn [isActive isAudioOn elapsed] in *. subst.
  assert (Elt : (e <? TOTAL_TIME) = true) by (apply Z.ltb_lt; lia).
  assert (Ege : (TOTAL_TIME <=? e) = false) by (apply Z.leb_gt; lia).
  assert (Edt : (0 <=? dt) = true) by (apply Z.leb_le; lia).
  (* the engine *)
  set (h2 := advance dt (stop (stop h))).
  pose proof (@playing_takes_effect h (reachable_flag Hr) Hp) as Hs0.
  assert (F1 : fadingOutUntil (clock h + 1000) (stop h)).
  { apply fadingOut_stop_begins; [exact Hs0|]. rewrite Ht. constructor. }
  assert (F2 : fadingOutUntil (clock h + 1000) h2).
  { change h2 with (runOps [OpStop; OpWait dt] (stop h)).
    apply fadingOut_ops; [exact F1 | |].
    - repeat constructor. simpl. lia.
    - rewrite stop_clock. simpl. lia. }
  assert (R2 : reachable h2).
  { change h2 with (runOps [OpStop; OpStop; OpWait dt] h).
    apply reachable_runOps; [|exact Hr]. repeat constructor. simpl. lia. }
  destruct F2 as (Hp2 & Hc2 & _ & _).
  pose proof (@playing_takes_effect h2 (reachable_flag R2) Hp2) as Hs2.
  destruct (stop_again_takes_effect Hs2) as [(Hp3 & _ & Hc3) _].
  assert (Hstart : start (stop h2) = stop h2)
    by (now apply start_when_playing).
  assert (Hne : timers (stop h2) <> []).
  { destruct Hs2 as (Hp2' & Hsrc2 & Hctx2).
    destruct (source (engine h2)) as [src|] eqn:Es; [|contradiction].
    destruct (ctx (engine h2)) as [c|] eqn:Ec; [|contradiction].
    rewrite (stop_when_playing h2 Hp2' Es Ec). cbn [timers].
    intros E. apply app_eq_nil in E as [_ E]. discriminate. }
  assert (R3 : reachable (stop h2))
    by (apply (@reach_op _ OpStop); [exact R2 | exact I]).
  destruct (@timeouts_run_within_second (stop h2) 1000
              (reachable_timers_within_second R3) ltac:(lia))
    as [Hnone Hoff].
  specialize (Hoff Hne).
  (* the page *)
  eexists. split.
  { cbn [run]. rewrite step_pause by lia. rewrite step_wait by lia.
    rewrite step_resume by lia. rewrite step_wait by lia. reflexivity. }
  cbn [sessionView host]. change (advance dt (stop (stop h))) with h2.
  rewrite Hstart. split.
  { unfold h2. rewrite advance_clock, !stop_clock. reflexivity. }
  split; [exact Hoff|]. split; [exact Hnone|].
  intros evs w'' Hev Hrun.
  eapply time_passing_keeps_idle; [exact Hev | | exact Hrun].
  cbn [host]. exact Hoff.
Qed.

Lemma quick_resume_leaves_audio_off_witness :
  settled (afterRun (seconds 5) sampleSession) /\
  sessionView (afterRun (seconds 5) sampleSession)
  = Some (mkSession 5 true true (Some 1700000006000)) /\
  isPlaying (engine (host (afterRun (seconds 5) sampleSession))) = true /\
  timers (host (afterRun (seconds 5) sampleSession)) = [] /\
  0 <= 400 < 1000 /\
  exists w',
    run [TogglePlay; Wait 400; TogglePlay; Wait 1000]
        (afterRun (seconds 5) sampleSession) = Some w' /\
    isPlaying (engine (host w')) = false.
Proof.
  assert (H0 : settled (afterRun (seconds 5) sampleSession)).
  { apply (@settled_run (SplashDone :: ClickStart :: seconds 5) samplePage);
      [apply settled_firstRender | vm_compute; reflexivity]. }
  assert (H1 : sessionView (afterRun (seconds 5) sampleSession)
               = Some (mkSession 5 true true (Some 1700000006000)))
    by (vm_compute; reflexivity).
  assert (H2 : isPlaying (engine (host (afterRun (seconds 5) sampleSession)))
               = true) by (vm_compute; reflexivity).
  assert (H3 : timers (host (afterRun (seconds 5) sampleSession)) = [])
    by (vm_compute; reflexivity).
  assert (H4 : 0 <= 400 < 1000) by lia.
  split; [exact H0|]. split; [exact H1|]. split; [exact H2|].
  split; [exact H3|]. split; [exact H4|].
  destruct (@quick_resume_leaves_audio_off _ _ 400 H0 H1 eq_refl eq_refl
              H2 H3 H4) as (w' & Hrun & _ & Hoff & _).
  exists w'. split; [exact Hrun | exact Hoff].
Defined.

(** ** Resuming after the fade-out *)

(** X16.  Resuming a second or more after pausing brings the sound back.
    On a page with a running session and audio playing, pause, wait
    [dt >= 1000] ms, resume: the fade-out has ended and its timeouts have
    run, so [start] starts again: the engine is playing a source made of
    fresh random draws, no timeout is pending, and what is scheduled on the
    gain from that instant on is a fade-in from 0 to 0.5 over two
    seconds. *)
Theorem resume_after_a_second_restores_audio : forall w s dt,
  settled w ->
  sessionView w = Some s ->
  isActive s = true ->
  isAudioOn s = true ->
  isPlaying (engine (host w)) = true ->
  1000 <= dt ->
  exists w' src,
    run [TogglePlay; Wait dt; TogglePlay] w = Some w' /\
    sessionView w'
    = Some (mkSession (elapsed s) true true
                      (Some (clock (host w) + dt + 1000))) /\
    isPlaying (engine (host w')) = true /\
    timers (host w') = [] /\
    source (engine (host w')) = Some src /\
    firstDraw src = drawn (host w) /\
    stopped src = false /\
    option_map (scheduledFrom (audioTime (host w'))) (engineGain (host w'))
    = Some [mkEvent SetValue 0 (audioTime (host w'));
            mkEvent LinearRamp 0.5 (audioTime (host w') + 2)].
Proof.
  intros w s dt [Hm He _ Hf _ Hr] Hs Ha Hau Hp Hdt.
  specialize (He s Hs).
  assert (Hv : view w = view_session) by (apply Hm; rewrite Hs; discriminate).
  destruct w as [h v hist hc ls sv cl]. cbn in Hs, Hv, Hf, Hr, Hp. subst.
  destruct s as [e a au iv]. cbn [isActive isAudioOn elapsed] in *. subst.
  assert (Elt : (e <? TOTAL_TIME) = true) by (apply Z.ltb_lt; lia).
  assert (Ege : (TOTAL_TIME <=? e) = false) by (apply Z.leb_gt; lia).
  assert (Edt : (0 <=? dt) = true) by (apply Z.leb_le; lia).
  (* the engine *)
  set (h2 := advance dt (stop (stop h))).
  pose proof (@playing_takes_effect h (reachable_flag Hr) Hp) as Hs0.
  assert (R1 : reachable (stop (stop h))).
  { change (stop (stop h)) with (runOps [OpStop; OpStop] h).
    apply reachable_runOps; [|exact Hr]. repeat constructor. }
  assert (Hne : timers (stop (stop h)) <> []).
  { rewrite (proj2 (stop_again_takes_effect Hs0)).
    intros E. apply app_eq_nil in E as [_ E]. discriminate. }
  destruct (@timeouts_run_within_second (stop (stop h)) dt
              (reachable_timers_within_second R1) Hdt) as [Hnone Hoff].
  specialize (Hoff Hne). fold h2 in Hnone, Hoff.
  assert (Hstop : stop h2 = h2) by (now apply stop_when_idle).
  pose proof (start_when_idle h2 Hoff) as Hstart. cbv zeta in Hstart.
  (* the page *)
  eexists. eexists. split.
  { cbn [run]. rewrite step_pause by lia. rewrite step_wait by lia.
    rewrite step_resume by lia. reflexivity. }
  cbn [sessionView host]. change (advance dt (stop (stop h))) with h2.
  rewrite Hstop, Hstart. cbn [engine isPlaying timers source]. split.
  { unfold h2. rewrite advance_clock, !stop_clock. reflexivity. }
  split; [reflexivity|]. split; [exact Hnone|]. split; [reflexivity|].
  cbn [firstDraw stopped]. split.
  { unfold h2. rewrite advance_drawn, !stop_drawn. reflexivity. }
  split; [reflexivity|].
  unfold audioTime, engineGain. cbn [ctx engine option_map gain currentTime].
  f_equal. eapply scheduledFrom_envelope;
    [ | apply cancel_keeps_earlier | apply fadeIn_events].
  unfold Qle; simpl; lia.
Qed.

Lemma resume_after_a_second_restores_audio_witness :
  settled (afterRun (seconds 5) sampleSession) /\
  sessionView (afterRun (seconds 5) sampleSession)
  = Some (mkSession 5 true true (Some 1700000006000)) /\
  isPlaying (engine (host (afterRun (seconds 5) sampleSession))) = true /\
  1000 <= 1500 /\
  exists w',
    run [TogglePlay; Wait 1500; TogglePlay]
        (afterRun (seconds 5) sampleSession) = Some w' /\
    isPlaying (engine (host w')) = true /\
    timers (host w') = [].
Proof.
  assert (H0 : settled (afterRun (seconds 5) sampleSession)).
  { apply (@settled_run (SplashDone :: ClickStart :: seconds 5) samplePage);
      [apply settled_firstRender | vm_compute; reflexivity]. }
  assert (H1 : sessionView (afterRun (seconds 5) sampleSession)
               = Some (mkSession 5 true true (Some 1700000006000)))
    by (vm_compute; reflexivity).
  assert (H2 : isPlaying (engine (host (afterRun (seconds 5) sampleSession)))
               = true) by (vm_compute; reflexivity).
  assert (H4 : 1000 <= 1500) by lia.
  split; [exact H0|]. split; [exact H1|]. split; [exact H2|].
  split; [exact H4|].
  destruct (@resume_after_a_second_restores_audio _ _ 1500 H0 H1
              eq_refl eq_refl H2 H4)
    as (w' & src & Hrun & _ & Hon & Hno & _).
  exists w'. split; [exact Hrun|]. split; [exact Hon | exact Hno].
Defined.

(** ** The engine under the application *)

(** X17.  The application drives the engine through [init], [start],
    [stop] and the passage of time only, so on every page reached from a
    load, whatever the store held and whatever history was read from it,
    the engine's invariants hold: at most one gain envelope is running or
    pending, the gain and every scheduled value are between 0 and 0.5, the
    flag matches the source, and every pending timeout comes due within a
    second. *)
Theorem pages_keep_the_engine_sound : forall evs now rate loaded saved w,
  run evs (firstRender now rate loaded saved) = Some w ->
  reachable (host w) /\
  oneEnvelope (host w) /\
  gainInRange (host w) /\
  flagMatchesSource (host w) /\
  timersWithinSecond (host w).
Proof.
  intros evs now rate loaded saved w Hrun.
  destruct (settled_run evs (settled_firstRender now rate loaded saved) Hrun)
    as [_ _ _ _ _ Hr].
  split; [exact Hr|]. split; [now apply reachable_oneEnvelope|].
  split; [now apply reachable_gainInRange|].
  split; [now apply reachable_flag|].
  now apply reachable_timers_within_second.
Qed.

Lemma pages_keep_the_engine_sound_witness :
  run (SplashDone :: ClickStart :: seconds 5
         ++ [TogglePlay; Wait 400; TogglePlay])
      (firstRender 1700000000000 44100 [] None)
  = Some sampleQuickResume /\
  oneEnvelope (host sampleQuickResume) /\
  gainInRange (host sampleQuickResume).
Proof.
  assert (H : run (SplashDone :: ClickStart :: seconds 5
                     ++ [TogglePlay; Wait 400; TogglePlay])
                  (firstRender 1700000000000 44100 [] None)
              = Some sampleQuickResume) by (vm_compute; reflexivity).
  split; [exact H|].
  destruct (pages_keep_the_engine_sound _ _ _ _ _ H) as (_ & H1 & H2 & _).
  split; [exact H1 | exact H2].
Defined.

End SessionExtras.

(* ================================================================== *)
(** * 19. The phase indicator and the history view                     *)
(* ================================================================== *)

Section ViewExtras.

(** X18.  The phase only moves forward, one step at a time: in a later
    second the phase is the same or a later one, one more second never
    skips a phase, and the indicator highlights exactly one of its three
    segments, the one of the current phase. *)
Theorem phase_moves_forward_one_step : forall e e',
  e <= e' ->
  phaseIndex (phase e) <= phaseIndex (phase e') /\
  phaseIndex (phase (e + 1)) <= phaseIndex (phase e) + 1 /\
  PhaseIndicator (phase e)
  = [ ("Entry", phaseIndex (phase e) =? 0);
      ("Immersion", phaseIndex (phase e) =? 1);
      ("Return", phaseIndex (phase e) =? 2) ].
Proof.
  intros e e' Hle. unfold phase, PHASE_1_END, PHASE_2_END.
  change (2 * 60) with 120. change (18 * 60) with 1080.
  destruct (e <? 120) eqn:A1; destruct (e <? 1080) eqn:A2;
    destruct (e' <? 120) eqn:B1; destruct (e' <? 1080) eqn:B2;
    destruct (e + 1 <? 120) eqn:C1; destruct (e + 1 <? 1080) eqn:C2;
    try apply Z.ltb_lt in A1; try apply Z.ltb_ge in A1;
    try apply Z.ltb_lt in A2; try apply Z.ltb_ge in A2;
    try apply Z.ltb_lt in B1; try apply Z.ltb_ge in B1;
    try apply Z.ltb_lt in B2; try apply Z.ltb_ge in B2;
    try apply Z.ltb_lt in C1; try apply Z.ltb_ge in C1;
    try apply Z.ltb_lt in C2; try apply Z.ltb_ge in C2;
    try lia; cbn; repeat split; lia.
Qed.

Lemma phase_moves_forward_one_step_witness :
  119 <= 120 /\
  phaseIndex (phase 119) <= phaseIndex (phase 120) /\
  PhaseIndicator (phase 119)
  = [("Entry", true); ("Immersion", false); ("Return", false)].
Proof.
  assert (H : 119 <= 120) by lia.
  split; [exact H|].
  destruct (phase_moves_forward_one_step H) as (H1 & _ & H3).
  split; [exact H1 | exact H3].
Defined.

Lemma HistoryView_added : forall h r,
  HistoryView (h ++ [r])
  = (date r, durationLabel (duration r), completed r) :: HistoryView h.
Proof.
  intros h r. unfold HistoryView. now rewrite rev_app_distr.
Qed.

(** X19.  A session that completes goes to the top of the history view:
    on a page loaded over a store that holds a [SessionRecord[]], when a
    tick adds to the history, the view afterwards is the view before
    with one row put first, for the record dated at that instant, with
    the text [20m 0s] and the check mark; the rows below keep their
    order, and there are as many rows as the dashboard's streak counts. *)
Theorem completed_session_tops_the_history_view :
  forall now rate saved w0 evs w w',
  boot now rate saved = Some w0 ->
  run evs w0 = Some w ->
  step Tick w = Some w' ->
  history w' <> history w ->
  HistoryView (history w')
  = (toISOString (clock (host w)), "20m 0s", true) :: HistoryView (history w)
  /\ List.length (HistoryView (history w')) = streak (history w').
Proof.
  intros now rate saved w0 evs w w' Hboot Hrun Hstep Hne.
  pose proof (settled_run evs (settled_boot _ _ _ Hboot) Hrun) as Hs.
  destruct (@step_history Tick w w' Hs Hstep) as [E | [_ E]];
    [contradiction|].
  split.
  - rewrite E, HistoryView_added. reflexivity.
  - unfold HistoryView. now rewrite length_map, length_rev, streak_length.
Qed.

Lemma completed_session_tops_the_history_view_witness :
  boot 1700000000000 44100 (Some (stringifyHistory sampleHistory))
  = Some sampleReturningPage /\
  run (SplashDone :: ClickStart :: seconds 1199 ++ [Wait 1000])
      sampleReturningPage
  = Some sampleReturningLastSecond /\
  step Tick sampleReturningLastSecond
  = Some (afterRun [Tick] sampleReturningLastSecond) /\
  history (afterRun [Tick] sampleReturningLastSecond)
  <> history sampleReturningLastSecond /\
  HistoryView (history (afterRun [Tick] sampleReturningLastSecond))
  = [ ("2023-11-14T22:33:20.000Z", "20m 0s", true);
      ("2023-07-22T04:26:40.000Z", "20m 0s", true) ].
Proof.
  assert (H0 : boot 1700000000000 44100
                    (Some (stringifyHistory sampleHistory))
               = Some sampleReturningPage) by reflexivity.
  assert (H1 : run (SplashDone :: ClickStart :: seconds 1199 ++ [Wait 1000])
                   sampleReturningPage
               = Some sampleReturningLastSecond) by (vm_compute; reflexivity).
  assert (H2 : step Tick sampleReturningLastSecond
               = Some (afterRun [Tick] sampleReturningLastSecond))
    by (vm_compute; reflexivity).
  assert (H3 : history (afterRun [Tick] sampleReturningLastSecond)
               <> history sampleReturningLastSecond)
    by (vm_compute; discriminate).
  split; [exact H0|]. split; [exact H1|]. split; [exact H2|].
  split; [exact H3|].
  destruct (completed_session_tops_the_history_view _ _ _ _ H0 H1 H2 H3)
    as [H4 _].
  rewrite H4. vm_compute. reflexivity.
Defined.

End ViewExtras.
